(** * A MapReduce engine with a shortest-job-first thread pool

    Shallow embedding of [src/mapreduce.c] and [src/threadpool.c], and the
    properties of the partition store, the partitioner, the job queue and
    the worker pool.

    Conventions of the embedding.
    - A [char *] argument is the list of bytes stored from the pointer on;
      [None] is the NULL pointer.  The C string ends at the first NUL byte
      of the list or, when the list holds none, at its end, where the
      terminator sits.  Every function below stops at the first NUL, as the
      C library does.
    - [unsigned long] and [size_t] are 64 bits wide (LP64, the data model of
      the POSIX platforms this code is built for), [unsigned int] and [int]
      are 32 bits wide; unsigned wrap-around is written out, and the [int]
      counter of the driver has no result where it would overflow, which
      is undefined in C.
    - Whether plain [char] is signed is implementation-defined (signed on
      x86-64, unsigned on AArch64 Linux): it is the parameter [char_signed].
    - A singly linked list is the list of its nodes, head first.
    - [malloc] and [strdup] succeed; the code does not check them.
    - A critical section guarded by a mutex is one atomic step. *)

From Stdlib Require Import ZArith Lia Bool.
From Stdlib Require Import Strings.Byte Strings.String.
From stdpp Require Import base list sorting relations.

Local Open Scope Z_scope.

(** ** C strings and the C library functions the engine calls *)

Module CString.

Definition NUL : byte := x00.

(** The value of a byte read through [unsigned char]. *)
Definition uchar (b : byte) : Z := Z.of_N (Byte.to_N b).

(** The value of a byte read through plain [char] and promoted to [int]. *)
Definition char_to_int (char_signed : bool) (b : byte) : Z :=
  if char_signed && (128 <=? uchar b) then uchar b - 256 else uchar b.

(** [strdup]: a fresh copy of the characters before the terminator. *)
Fixpoint strdup (s : list byte) : list byte :=
  match s with
  | [] => []
  | c :: s' => if uchar c =? 0 then [] else c :: strdup s'
  end.

(** [strlen]: the number of characters before the terminator. *)
Fixpoint strlen (s : list byte) : Z :=
  match s with
  | [] => 0
  | c :: s' => if uchar c =? 0 then 0 else 1 + strlen s'
  end.

(** [strcmp]: walk both strings while the characters agree and are not
    NUL, then return the difference of the two characters, read as
    [unsigned char].  The callers only look at the sign. *)
Fixpoint strcmp (s1 s2 : list byte) : Z :=
  match s1, s2 with
  | [], [] => 0
  | [], c2 :: _ => 0 - uchar c2
  | c1 :: _, [] => uchar c1 - 0
  | c1 :: t1, c2 :: t2 =>
      if uchar c1 =? uchar c2
      then (if uchar c1 =? 0 then 0 else strcmp t1 t2)
      else uchar c1 - uchar c2
  end.

(** A list of bytes that holds no NUL: the characters of a C string. *)
Definition is_cstr (s : list byte) : Prop := Forall (fun c => uchar c ≠ 0) s.

(** A string of 7-bit characters. *)
Definition is_ascii (s : list byte) : Prop := Forall (fun c => uchar c < 128) s.

(** The bytes of a string literal, for examples. *)
Definition bytes_of (s : string) : list byte := list_byte_of_string s.

End CString.

Import CString.

(** ** Fixed-width unsigned integers *)

Definition UINT_MAX : Z := 2 ^ 32 - 1.

(** [int] has 32 bits. *)
Definition INT_MAX : Z := 2 ^ 31 - 1.

(** Conversion to [unsigned long] / [size_t]. *)
Definition to_ulong (x : Z) : Z := x mod 2 ^ 64.

(** Conversion to [unsigned int]. *)
Definition to_uint (x : Z) : Z := x mod 2 ^ 32.

(** ** The partition store: [src/mapreduce.c] *)

Module MapReduce.

(** [struct KVPair]; the [next] link is the tail of the list. *)
Record KVPair : Type := mkKVPair {
  key : list byte;
  value : list byte;
}.

(** The [Partition] struct; the mutex is not part of the data. *)
Record Partition : Type := mkPartition {
  head : list KVPair;
  bytes : Z;
}.

(** The global variables [partitions] and [num_partitions]. *)
Record State : Type := mkState {
  partitions : list Partition;
  num_partitions : Z;
}.


Section WithChar.

(** Signedness of plain [char] on the target platform. *)
Variable char_signed : bool.

(** The loop of [MR_Partitioner]: [c = *key++] reads a [char] into an
    [int]; [hash] is an [unsigned long]. *)
Fixpoint MR_Partitioner_loop (key : list byte) (hash : Z) : Z :=
  match key with
  | [] => hash
  | b :: key' =>
      let c := char_to_int char_signed b in
      if c =? 0 then hash
      else MR_Partitioner_loop key'
             (to_ulong (to_ulong (to_ulong (Z.shiftl hash 5) + hash) + to_ulong c))
  end.

(** [MR_Partitioner]; [hash % num_partitions] is computed in
    [unsigned long] and returned as [unsigned int].  The division is
    undefined for [num_partitions = 0]; the callers exclude it. *)
Definition MR_Partitioner (key : list byte) (num_partitions : Z) : Z :=
  to_uint (MR_Partitioner_loop key 5381 mod num_partitions).

(** The loop of [insert_sorted]: [next] is the list hanging off
    [curr->next]; the result is that list after the loop has advanced
    [curr] and the new pair has been spliced in. *)
Fixpoint insert_sorted_loop (next : list KVPair) (pair : KVPair) : list KVPair :=
  match next with
  | [] => [pair]
  | n :: next' =>
      if strcmp (key n) (key pair) <? 0
      then n :: insert_sorted_loop next' pair
      else pair :: next
  end.

(** [insert_sorted], on the list of a partition. *)
Definition insert_sorted (head : list KVPair) (pair : KVPair) : list KVPair :=
  match head with
  | [] => [pair]
  | h :: next =>
      if 0 <=? strcmp (key h) (key pair)
      then pair :: head
      else h :: insert_sorted_loop next pair
  end.

(** [MR_Emit].  [partitions[idx]] outside the array is undefined in C;
    the model leaves the state alone there, and [idx] is inside the array
    whenever the array holds [num_partitions] partitions. *)
Definition MR_Emit (key value : option (list byte)) (s : State) : State :=
  match key, value with
  | Some key, Some value =>
      if num_partitions s =? 0 then s
      else
        let idx := MR_Partitioner key (num_partitions s) in
        match partitions s !! Z.to_nat idx with
        | None => s
        | Some partition =>
            let key_copy := strdup key in
            let val_copy := strdup value in
            let pair := mkKVPair key_copy val_copy in
            let partition' :=
              mkPartition
                (insert_sorted (head partition) pair)
                (to_ulong (bytes partition
                           + to_ulong (to_ulong (strlen key_copy + strlen val_copy) + 2))) in
            mkState (<[Z.to_nat idx := partition']> (partitions s)) (num_partitions s)
        end
  | _, _ => s
  end.

(** [MR_GetNext]: the returned pointer ([None] is NULL) and the state
    it leaves.  [partition_idx] is an [unsigned int].  As in [MR_Emit], the
    array access is inside the array whenever the array holds
    [num_partitions] partitions. *)
Definition MR_GetNext (key : option (list byte)) (partition_idx : Z) (s : State)
  : option (list byte) * State :=
  match key with
  | None => (None, s)
  | Some key =>
      if num_partitions s <=? partition_idx then (None, s)
      else
        match partitions s !! Z.to_nat partition_idx with
        | None => (None, s)
        | Some partition =>
            match head partition with
            | [] => (None, s)
            | kv :: next =>
                if negb (strcmp (MapReduce.key kv) key =? 0) then (None, s)
                else
                  (Some (value kv),
                   mkState
                     (<[Z.to_nat partition_idx := mkPartition next (bytes partition)]>
                        (partitions s))
                     (num_partitions s))
            end
        end
  end.

(** The start of [MR_Run]: [num_parts] partitions, each with an empty
    list and a zero byte counter. *)
Definition MR_Run_init (num_parts : Z) : State :=
  mkState (replicate (Z.to_nat num_parts) (mkPartition [] 0)) num_parts.

(** The loop of [Reduce] in [src/distwc.c]: call [MR_GetNext] until it
    returns NULL.  The values are collected in the order they come;
    the reducer's [count] is the length of the result.  [fuel] bounds the
    number of iterations. *)
Fixpoint Reduce_loop (fuel : nat) (key : list byte) (partition_idx : Z) (s : State)
  : option (list (list byte) * State) :=
  match fuel with
  | O => None
  | S fuel' =>
      match MR_GetNext (Some key) partition_idx s with
      | (None, s') => Some ([], s')
      | (Some value, s') =>
          match Reduce_loop fuel' key partition_idx s' with
          | None => None
          | Some (values, s'') => Some (value :: values, s'')
          end
      end
  end.

(** A call into the partition store, and the state after a sequence of
    calls. *)
Inductive call : Type :=
| Emit (key value : option (list byte))
| GetNext (key : option (list byte)) (partition_idx : Z).

Definition do_call (s : State) (c : call) : State :=
  match c with
  | Emit key value => MR_Emit key value s
  | GetNext key partition_idx => snd (MR_GetNext key partition_idx s)
  end.

Definition do_calls (cs : list call) (s : State) : State :=
  fold_left do_call cs s.

End WithChar.

(** The djb2 hash as the specification words it: start at 5381 and, for
    each byte [c] of the key, [h = h*33 + c] in unsigned arithmetic; the
    result reduced mod [P]. *)
Fixpoint djb2_spec (bytes : list byte) (h : Z) : Z :=
  match bytes with
  | [] => h
  | c :: rest => djb2_spec rest (to_ulong (h * 33 + uchar c))
  end.

Definition partitioner_spec (key : list byte) (P : Z) : Z :=
  djb2_spec (strdup key) 5381 mod P.

(** The same hash with the bytes read through plain [char]: where [char]
    is signed, a byte [c] of 128 or more is added as [c - 256]; the other
    bytes, and all bytes where [char] is unsigned, are added as they
    are. *)
Fixpoint djb2_char (char_signed : bool) (bytes : list byte) (h : Z) : Z :=
  match bytes with
  | [] => h
  | c :: rest =>
      let added :=
        if char_signed && (128 <=? uchar c) then uchar c - 256 else uchar c in
      djb2_char char_signed rest (to_ulong (h * 33 + added))
  end.

Definition partitioner_char (char_signed : bool) (key : list byte) (P : Z) : Z :=
  djb2_char char_signed (strdup key) 5381 mod P.

(** What a partition's byte counter is said to hold: the sum of
    [len(key) + len(value) + 2] over a list of pairs. *)
Definition pair_bytes (pair : KVPair) : Z :=
  strlen (key pair) + strlen (value pair) + 2.

Definition sum_pair_bytes (pairs : list KVPair) : Z :=
  foldr (fun pair acc => pair_bytes pair + acc) 0 pairs.

(** Byte order on the keys of two pairs: [a.key <= b.key]. *)
Definition key_le (a b : KVPair) : Prop := strcmp (key a) (key b) <= 0.

(** The pair has the key [k], as [strcmp] sees it. *)
Definition has_key (k : list byte) (kv : KVPair) : Prop := strcmp (key kv) k = 0.

#[global] Instance has_key_dec k kv : Decision (has_key k kv) :=
  Z.eq_dec (strcmp (key kv) k) 0.

(** The leading pairs of a list that have the key [k]: what repeated
    [MR_GetNext] calls for [k] take from the head of a partition. *)
Fixpoint take_key (k : list byte) (pairs : list KVPair) : list KVPair :=
  match pairs with
  | [] => []
  | kv :: next =>
      if strcmp (key kv) k =? 0 then kv :: take_key k next else []
  end.

(** *** One partition under a sequence of calls

    A call touches one partition at most.  These definitions say what a
    call does to the partition at index [p] when the store has [P]
    partitions; the lemmas of the next part relate them to [MR_Emit] and
    [MR_GetNext]. *)

Section OnePartition.

Variable char_signed : bool.

(** The critical section of [MR_Emit] on the partition it has chosen. *)
Definition emit_partition (key value : list byte) (partition : Partition) : Partition :=
  let key_copy := strdup key in
  let val_copy := strdup value in
  mkPartition
    (insert_sorted (head partition) (mkKVPair key_copy val_copy))
    (to_ulong (bytes partition
               + to_ulong (to_ulong (strlen key_copy + strlen val_copy) + 2))).

(** [MR_GetNext] on the partition it is asked about. *)
Definition getnext_partition (key : list byte) (partition : Partition) : Partition :=
  match head partition with
  | [] => partition
  | kv :: next =>
      if negb (strcmp (MapReduce.key kv) key =? 0) then partition
      else mkPartition next (bytes partition)
  end.

Definition call_on_partition (P : Z) (p : nat) (c : call) (partition : Partition)
  : Partition :=
  match c with
  | Emit (Some key) (Some value) =>
      if decide (P ≠ 0 ∧ Z.to_nat (MR_Partitioner char_signed key P) = p)
      then emit_partition key value partition
      else partition
  | GetNext (Some key) partition_idx =>
      if decide (partition_idx < P ∧ Z.to_nat partition_idx = p)
      then getnext_partition key partition
      else partition
  | _ => partition
  end.

Definition partition_after (P : Z) (p : nat) (calls : list call) : Partition :=
  fold_left (fun partition c => call_on_partition P p c partition) calls
    (mkPartition [] 0).

(** The pairs that the emits among [calls] have put into partition [p],
    oldest first. *)
Definition emitted_pair (P : Z) (p : nat) (c : call) : list KVPair :=
  match c with
  | Emit (Some key) (Some value) =>
      if decide (P ≠ 0 ∧ Z.to_nat (MR_Partitioner char_signed key P) = p)
      then [mkKVPair (strdup key) (strdup value)]
      else []
  | _ => []
  end.

Definition emitted_pairs (P : Z) (p : nat) (calls : list call) : list KVPair :=
  flat_map (emitted_pair P p) calls.

End OnePartition.

(** The values that the emits among [calls] have stored for the key [k],
    oldest first: one for each [MR_Emit] with non-null arguments, with a key
    equal to [k], while the store has partitions. *)
Definition emitted_value (P : Z) (k : list byte) (c : call) : list (list byte) :=
  match c with
  | Emit (Some key) (Some value) =>
      if decide (P ≠ 0 ∧ strcmp key k = 0) then [strdup value] else []
  | _ => []
  end.

Definition emitted_values (P : Z) (k : list byte) (calls : list call)
  : list (list byte) :=
  flat_map (emitted_value P k) calls.

(** The pairs in the list of partition [partition_idx]. *)
Definition live_pairs (s : State) (partition_idx : Z) : list KVPair :=
  match partitions s !! Z.to_nat partition_idx with
  | Some partition => head partition
  | None => []
  end.

(** No pair of the list has a key below [k]: the pairs with the key [k],
    if any, are at the head, where [MR_GetNext] looks. *)
Definition none_below (k : list byte) (pairs : list KVPair) : Prop :=
  Forall (fun kv => 0 <= strcmp (key kv) k) pairs.

(** The call is not an [MR_GetNext] that asks for the key [k]. *)
Definition leaves_key (k : list byte) (c : call) : Prop :=
  match c with
  | GetNext (Some key) _ => strcmp key k ≠ 0
  | _ => True
  end.

(** Calls on string literals, for examples. *)
Definition emit (k v : string) : call :=
  Emit (Some (bytes_of k)) (Some (bytes_of v)).

Definition get_next (k : string) (partition_idx : Z) : call :=
  GetNext (Some (bytes_of k)) partition_idx.

Definition kv_pair (k v : string) : KVPair := mkKVPair (bytes_of k) (bytes_of v).

(** A run in which ["sat"] is emitted twice and ["ate"], which sorts
    before it, is emitted and taken out again. *)
Definition sat_ate_calls : list call :=
  [emit "sat" "1"; emit "ate" "2"; emit "sat" "3"; get_next "ate" 9].

(** The call is an [MR_Emit]. *)
Definition is_Emit (c : call) : Prop :=
  match c with
  | Emit _ _ => True
  | GetNext _ _ => False
  end.

(** Byte order on C strings: [a <= b]. *)
Definition str_le (a b : list byte) : Prop := strcmp a b <= 0.

(** *** The rest of [src/mapreduce.c] and the driver [src/distwc.c] *)

(** [FileInfo]: a file name and its size. *)
Record FileInfo : Type := mkFileInfo {
  name : list byte;
  size : Z;
}.

(** [PartInfo]: a partition index and its byte count (the field [bytes]
    of the source; the name is taken by [Partition]). *)
Record PartInfo : Type := mkPartInfo {
  idx : Z;
  info_bytes : Z;
}.

(** [compare_file_size], the comparison [qsort] is given for the files. *)
Definition compare_file_size (fa fb : FileInfo) : Z :=
  if size fa >? size fb then 1
  else if size fa <? size fb then -1
  else 0.

(** [compare_part_bytes], the comparison [qsort] is given for the
    partitions. *)
Definition compare_part_bytes (pa pb : PartInfo) : Z :=
  if info_bytes pa >? info_bytes pb then 1
  else if info_bytes pa <? info_bytes pb then -1
  else 0.

(** A reduce callback: it is given the key and the partition index, and
    works on the partition store and on a world [W] of its own (its output
    files).  [None]: the callback does not return. *)
Definition Reducer (W : Type) : Type :=
  list byte → Z → State * W → option (State * W).

(** [MR_Reduce], the body of a reduce job: while the list of the
    partition is not empty, copy the key at its head and call the reducer
    with the copy.  [fuel] bounds the number of iterations; [None] when the
    fuel runs out, when the reducer does not return, or when [idx] is
    outside the array (undefined in C; [MR_Run] passes indices inside). *)
Fixpoint MR_Reduce {W : Type} (fuel : nat) (reduce_fn : Reducer W) (idx : Z)
    (w : State * W) : option (State * W) :=
  match fuel with
  | O => None
  | S fuel' =>
      match partitions (fst w) !! Z.to_nat idx with
      | None => None
      | Some partition =>
          match head partition with
          | [] => Some w
          | kv :: _ =>
              let key := strdup (MapReduce.key kv) in
              match reduce_fn key idx w with
              | None => None
              | Some w' => MR_Reduce fuel' reduce_fn idx w'
              end
          end
      end
  end.

(** A line ["key: count"] appended to the file [result-<file>.txt]:
    [file] and [count] are the integers that the [%d] conversions
    print. *)
Record line : Type := mkLine {
  file : Z;
  word : list byte;
  count : Z;
}.

(** [Reduce] of [src/distwc.c]: count the values [MR_GetNext] returns for
    the key and append one line to the result file of the partition.  The
    world is the list of the lines written so far, oldest first; the file
    is taken to open.

    [count] is an [int] that starts at 0 and is incremented once for each
    value: with more than [INT_MAX] values the increment overflows, which
    is undefined in C, and the model gives no result ([None]).  The
    partition index is an [unsigned int] given to [%d]: above [INT_MAX]
    it is no value of an [int], which is undefined as well, and the model
    gives no result either. *)
Definition Reduce (fuel : nat) : Reducer (list line) :=
  fun key partition_idx w =>
    match Reduce_loop fuel key partition_idx (fst w) with
    | None => None
    | Some (values, s') =>
        if (Z.of_nat (length values) <=? INT_MAX) && (partition_idx <=? INT_MAX)
        then Some (s', snd w ++ [mkLine partition_idx key (Z.of_nat (length values))])
        else None
    end.

(** The lines of a result file in strictly ascending byte order of their
    words. *)
Definition word_lt (a b : line) : Prop := strcmp (word a) (word b) < 0.

(** The count the lines give for the word [k], summed over the lines that
    carry it. *)
Fixpoint lines_count (k : list byte) (lines : list line) : Z :=
  match lines with
  | [] => 0
  | ln :: lines' =>
      (if strcmp (word ln) k =? 0 then count ln else 0) + lines_count k lines'
  end.

(** The call is [MR_GetNext] with a key, for the partition
    [partition_idx]. *)
Definition is_GetNext_at (partition_idx : Z) (c : call) : Prop :=
  match c with
  | GetNext (Some _) i => i = partition_idx
  | _ => False
  end.

(** The character is one of the characters of the C string [delim]. *)
Definition in_delim (delim : list byte) (c : byte) : bool :=
  existsb (fun d => uchar d =? uchar c) (strdup delim).

(** [strsep(&s, delim)] on a string that is not NULL: the token, and what
    [s] is afterwards ([None] is NULL: no delimiter was found). *)
Fixpoint strsep (delim : list byte) (s : list byte) : list byte * option (list byte) :=
  match s with
  | [] => ([], None)
  | c :: s' =>
      if uchar c =? 0 then ([], None)
      else if in_delim delim c then ([], Some s')
      else
        let (token, rest) := strsep delim s' in
        (c :: token, rest)
  end.

(** The delimiters of [Map]: space, tab, line feed and carriage return. *)
Definition Map_delim : list byte := [x20; x09; x0a; x0d].

(** The inner loop of [Map] in [src/distwc.c]: the tokens [strsep] cuts
    from the line, in order; [dummy] is the pointer the loop advances. *)
Fixpoint Map_tokens (fuel : nat) (dummy : option (list byte)) : option (list (list byte)) :=
  match fuel with
  | O => None
  | S fuel' =>
      match dummy with
      | None => Some []
      | Some s =>
          let (token, dummy') := strsep Map_delim s in
          match Map_tokens fuel' dummy' with
          | None => None
          | Some tokens => Some (token :: tokens)
          end
      end
  end.

(** The calls [Map] makes for one line: [MR_Emit(token, "1")] for each
    token. *)
Definition Map_line_calls (tokens : list (list byte)) : list call :=
  (fun token => Emit (Some token) (Some (bytes_of "1"))) <$> tokens.

End MapReduce.

(** ** The job queue and the worker pool: [src/threadpool.c] *)

Module ThreadPool.

(** Modelled from the spec: the job record of [threadpool.h], which is not
    among the sources: "a function pointer, a single argument pointer, a
    [job_size] hint (unsigned, bytes), and a successor link".  The two
    pointers are addresses; the successor link is the tail of the list. *)
Record ThreadPool_job_t : Type := mkJob {
  func : Z;
  arg : Z;
  job_size : Z;
}.

(** Modelled from the spec: the queue record of [threadpool.h]: a singly
    linked list of jobs, with the counter [size] that [threadpool.c]
    increments and decrements; the counter is taken as an unbounded
    integer. *)
Record ThreadPool_job_queue_t : Type := mkQueue {
  head : list ThreadPool_job_t;
  size : Z;
}.

(** Modelled from the spec: the pool record of [threadpool.h]: "a boolean
    [stop]; an integer [active_workers]; and the job queue", with the
    number of threads.  The mutex and the two condition variables are not
    part of the data; [active_workers] is taken as an unbounded integer. *)
Record ThreadPool_t : Type := mkPool {
  num_threads : Z;
  active_workers : Z;
  jobs : ThreadPool_job_queue_t;
  stop : bool;
}.

(** The loop of [add_job_to_queue]: [next] is the list hanging off
    [curr->next]; the result is that list with the job spliced in. *)
Fixpoint add_job_to_queue_loop (next : list ThreadPool_job_t) (job : ThreadPool_job_t)
  : list ThreadPool_job_t :=
  match next with
  | [] => [job]
  | n :: next' =>
      if job_size n <? job_size job
      then n :: add_job_to_queue_loop next' job
      else job :: next
  end.

(** [add_job_to_queue]. *)
Definition add_job_to_queue (q : ThreadPool_job_queue_t) (job : ThreadPool_job_t)
  : ThreadPool_job_queue_t :=
  mkQueue
    (match head q with
     | [] => [job]
     | h :: next =>
         if job_size h >=? job_size job
         then job :: head q
         else h :: add_job_to_queue_loop next job
     end)
    (size q + 1).

(** [ThreadPool_create], without the threads it starts: [None] is the NULL
    it returns for [num = 0]. *)
Definition ThreadPool_create (num : Z) : option ThreadPool_t :=
  if num =? 0 then None
  else Some (mkPool num 0 (mkQueue [] 0) false).

(** [ThreadPool_add_job]: the returned flag and the pool it leaves.  On
    rejection the job record is freed and [arg] is left to the caller. *)
Definition ThreadPool_add_job (tp : ThreadPool_t) (func arg job_size : Z)
  : bool * ThreadPool_t :=
  let job := mkJob func arg job_size in
  if stop tp then (false, tp)
  else
    (true,
     mkPool (num_threads tp) (active_workers tp)
       (add_job_to_queue (jobs tp) job) (stop tp)).

(** [ThreadPool_get_job]: the returned job ([None] is NULL) and the pool
    it leaves. *)
Definition ThreadPool_get_job (tp : ThreadPool_t)
  : option ThreadPool_job_t * ThreadPool_t :=
  match head (jobs tp) with
  | [] => (None, tp)
  | job :: next =>
      (Some job,
       mkPool (num_threads tp) (active_workers tp)
         (mkQueue next (size (jobs tp) - 1)) (stop tp))
  end.

(** A queue operation, for sequences of enqueues and dequeues. *)
Inductive queue_op : Type :=
| Enqueue (job : ThreadPool_job_t)
| Dequeue.

Definition do_queue_op (tp : ThreadPool_t) (op : queue_op) : ThreadPool_t :=
  match op with
  | Enqueue job =>
      mkPool (num_threads tp) (active_workers tp)
        (add_job_to_queue (jobs tp) job) (stop tp)
  | Dequeue => snd (ThreadPool_get_job tp)
  end.

Definition do_queue_ops (ops : list queue_op) (tp : ThreadPool_t) : ThreadPool_t :=
  fold_left do_queue_op ops tp.

(** The smallest [job_size] of a non-empty list of jobs. *)
Fixpoint min_job_size (first : ThreadPool_job_t) (rest : list ThreadPool_job_t) : Z :=
  match rest with
  | [] => job_size first
  | j :: rest' => Z.min (job_size first) (min_job_size j rest')
  end.

(** The order the queue is kept in: ascending [job_size]. *)
Definition job_le (a b : ThreadPool_job_t) : Prop := job_size a <= job_size b.

(** *** The worker loop, one critical section at a time *)

(** What a worker finds in the first critical section of [Thread_run]. *)
Inductive acquired : Type :=
| Wait                           (* blocks in [pthread_cond_wait] on [has_job] *)
| Exit                           (* [break]: stopping and nothing to do *)
| Retry                          (* [ThreadPool_get_job] returned NULL: [continue] *)
| Run (job : ThreadPool_job_t).  (* goes on to call [job->func(job->arg)] *)

(** The first critical section of [Thread_run], from [pthread_mutex_lock]
    to the unlock before the job is run (or to the wait, the break or the
    continue). *)
Definition Thread_run_acquire (tp : ThreadPool_t) : acquired * ThreadPool_t :=
  if (size (jobs tp) =? 0) && negb (stop tp) then (Wait, tp)
  else if stop tp && (size (jobs tp) =? 0) then (Exit, tp)
  else
    match ThreadPool_get_job tp with
    | (None, tp') => (Retry, tp')
    | (Some job, tp') =>
        (Run job,
         mkPool (num_threads tp') (active_workers tp' + 1) (jobs tp') (stop tp'))
    end.

(** The second critical section of [Thread_run], after the job's function
    has returned: the flag tells whether [all_idle] is broadcast. *)
Definition Thread_run_release (tp : ThreadPool_t) : bool * ThreadPool_t :=
  let tp' := mkPool (num_threads tp) (active_workers tp - 1) (jobs tp) (stop tp) in
  ((size (jobs tp') =? 0) && (active_workers tp' =? 0), tp').

(** The loop condition of [ThreadPool_check]: the call returns when it
    finds the condition false with the lock held. *)
Definition ThreadPool_check_waits (tp : ThreadPool_t) : bool :=
  (size (jobs tp) >? 0) || (active_workers tp >? 0).

(** The critical section of [ThreadPool_destroy]. *)
Definition ThreadPool_destroy_stop (tp : ThreadPool_t) : ThreadPool_t :=
  mkPool (num_threads tp) (active_workers tp) (jobs tp) true.

(** Where a worker thread stands in [Thread_run]. *)
Inductive worker : Type :=
| AtLoopTop                         (* about to take the lock, or waiting on [has_job] *)
| InJob (job : ThreadPool_job_t)    (* inside [job->func(job->arg)], lock released *)
| AfterJob (job : ThreadPool_job_t) (* the function has returned *)
| Terminated.

(** The pool with its threads.  [accepted] and [completed] record history:
    the jobs for which [ThreadPool_add_job] returned true, and the jobs
    whose function has returned. *)
Record System : Type := mkSystem {
  pool : ThreadPool_t;
  threads : list worker;
  accepted : list ThreadPool_job_t;
  completed : list ThreadPool_job_t;
}.

(** The pool [tp] right after [ThreadPool_create] has started its threads,
    each at the top of the loop of [Thread_run]. *)
Definition System_create (tp : ThreadPool_t) : System :=
  mkSystem tp (replicate (Z.to_nat (num_threads tp)) AtLoopTop) [] [].

Definition after_acquire (r : acquired) : worker :=
  match r with
  | Wait | Retry => AtLoopTop
  | Exit => Terminated
  | Run job => InJob job
  end.

(** The job a worker is running, and the job it has taken and not yet
    given back in its second critical section. *)
Definition running (w : worker) : list ThreadPool_job_t :=
  match w with
  | InJob job => [job]
  | _ => []
  end.

Definition busy (w : worker) : list ThreadPool_job_t :=
  match w with
  | InJob job | AfterJob job => [job]
  | _ => []
  end.

(** One step of the pool: some thread runs one critical section, or a
    job's function returns. *)
Inductive sys_step : System -> System -> Prop :=
| step_add_job s func arg job_size ok tp' :
    ThreadPool_add_job (pool s) func arg job_size = (ok, tp') ->
    sys_step s
      (mkSystem tp' (threads s)
         (if ok then mkJob func arg job_size :: accepted s else accepted s)
         (completed s))
| step_acquire s (i : nat) r tp' :
    threads s !! i = Some AtLoopTop ->
    Thread_run_acquire (pool s) = (r, tp') ->
    sys_step s
      (mkSystem tp' (<[i := after_acquire r]> (threads s)) (accepted s) (completed s))
| step_func_returns s (i : nat) job :
    threads s !! i = Some (InJob job) ->
    sys_step s
      (mkSystem (pool s) (<[i := AfterJob job]> (threads s)) (accepted s)
         (job :: completed s))
| step_release s (i : nat) job :
    threads s !! i = Some (AfterJob job) ->
    sys_step s
      (mkSystem (snd (Thread_run_release (pool s))) (<[i := AtLoopTop]> (threads s))
         (accepted s) (completed s))
| step_destroy s :
    sys_step s
      (mkSystem (ThreadPool_destroy_stop (pool s)) (threads s) (accepted s) (completed s)).

(** The states the pool can be in after [ThreadPool_create num]. *)
Inductive reachable (num : Z) : System -> Prop :=
| reachable_create tp :
    ThreadPool_create num = Some tp ->
    reachable num (System_create tp)
| reachable_step s s' :
    reachable num s -> sys_step s s' -> reachable num s'.

(** What the lock keeps true of the pool: [size] counts the queue,
    [active_workers] counts the workers that hold a job, and every accepted
    job is in the queue, is being run, or has completed. *)
Definition pool_inv (s : System) : Prop :=
  size (jobs (pool s)) = Z.of_nat (length (head (jobs (pool s))))
  ∧ active_workers (pool s) = Z.of_nat (length (flat_map busy (threads s)))
  ∧ accepted s ≡ₚ head (jobs (pool s)) ++ flat_map running (threads s) ++ completed s.

(** [n] calls of [ThreadPool_get_job], one after another: the jobs
    returned, in order, and the pool that is left. *)
Fixpoint get_jobs (n : nat) (tp : ThreadPool_t) : list ThreadPool_job_t * ThreadPool_t :=
  match n with
  | O => ([], tp)
  | S n' =>
      match ThreadPool_get_job tp with
      | (None, tp') => ([], tp')
      | (Some job, tp') =>
          let (rest, tp'') := get_jobs n' tp' in
          (job :: rest, tp'')
      end
  end.

(** What holds of the threads of a pool created with [num] threads: their
    number is fixed, and a worker has left its loop only after the stop
    flag was set and the queue was empty. *)
Definition shutdown_inv (num : Z) (s : System) : Prop :=
  num_threads (pool s) = num
  ∧ length (threads s) = Z.to_nat num
  ∧ (Terminated ∈ threads s → stop (pool s) = true ∧ head (jobs (pool s)) = []).

(** *** Waiting on [has_job]

    [sys_step] lets a worker at the top of its loop run the first critical
    section at any time, also a worker that is blocked in
    [pthread_cond_wait(&tp->has_job, &tp->lock)].  That covers every run
    of the pool, and so it is enough for what holds in every state; for
    what the workers get done it is not.  The states below tell a blocked
    worker from an awake one: a blocked worker takes no step until it is
    woken, by the [pthread_cond_signal] of [ThreadPool_add_job], by the
    [pthread_cond_broadcast] of [ThreadPool_destroy], or spuriously, as
    POSIX allows. *)

Inductive thread : Type :=
| Awake (w : worker)   (* runs, or is ready to take the lock *)
| Blocked.             (* in [pthread_cond_wait] on [has_job], the lock released *)

(** Where the thread stands in [Thread_run]: a blocked worker is inside
    the inner loop at the top of [Thread_run]. *)
Definition erase (t : thread) : worker :=
  match t with
  | Awake w => w
  | Blocked => AtLoopTop
  end.

Record Blocking : Type := mkBlocking {
  bpool : ThreadPool_t;
  bthreads : list thread;
  baccepted : list ThreadPool_job_t;
  bcompleted : list ThreadPool_job_t;
}.

(** The state with the blocked workers forgotten. *)
Definition sys (b : Blocking) : System :=
  mkSystem (bpool b) (erase <$> bthreads b) (baccepted b) (bcompleted b).

Definition Blocking_create (tp : ThreadPool_t) : Blocking :=
  mkBlocking tp (replicate (Z.to_nat (num_threads tp)) (Awake AtLoopTop)) [] [].

(** The worker after its first critical section: on [Wait] it has given
    the lock back inside [pthread_cond_wait] and is blocked.  Once woken it
    holds the lock again and tests the condition of the inner loop again,
    which is where [Thread_run_acquire] starts. *)
Definition after_wait (r : acquired) : thread :=
  match r with
  | Wait => Blocked
  | _ => Awake (after_acquire r)
  end.

(** The steps of the worker threads: an awake worker runs a critical
    section of [Thread_run], or the function of its job returns. *)
Inductive worker_step : Blocking -> Blocking -> Prop :=
| wstep_acquire b (i : nat) r tp' :
    bthreads b !! i = Some (Awake AtLoopTop) ->
    Thread_run_acquire (bpool b) = (r, tp') ->
    worker_step b
      (mkBlocking tp' (<[i := after_wait r]> (bthreads b)) (baccepted b)
         (bcompleted b))
| wstep_func_returns b (i : nat) job :
    bthreads b !! i = Some (Awake (InJob job)) ->
    worker_step b
      (mkBlocking (bpool b) (<[i := Awake (AfterJob job)]> (bthreads b))
         (baccepted b) (job :: bcompleted b))
| wstep_release b (i : nat) job :
    bthreads b !! i = Some (Awake (AfterJob job)) ->
    worker_step b
      (mkBlocking (snd (Thread_run_release (bpool b)))
         (<[i := Awake AtLoopTop]> (bthreads b)) (baccepted b) (bcompleted b)).

(** [pthread_cond_signal(&tp->has_job)]: if workers are blocked, one of
    them is woken. *)
Inductive cond_signal : list thread -> list thread -> Prop :=
| signal_nobody ths :
    Blocked ∉ ths -> cond_signal ths ths
| signal_wake ths (i : nat) :
    ths !! i = Some Blocked -> cond_signal ths (<[i := Awake AtLoopTop]> ths).

(** [pthread_cond_broadcast(&tp->has_job)]: every blocked worker is
    woken. *)
Definition wake (t : thread) : thread :=
  match t with
  | Blocked => Awake AtLoopTop
  | Awake w => Awake w
  end.

Definition cond_broadcast (ths : list thread) : list thread := wake <$> ths.

(** One step of the pool with its blocked workers: a worker step; a call
    of [ThreadPool_add_job], which signals [has_job] when it accepts the
    job and not when it rejects it; the critical section of
    [ThreadPool_destroy], which broadcasts [has_job]; or a spurious
    wake-up. *)
Inductive blocking_step : Blocking -> Blocking -> Prop :=
| bstep_worker b b' :
    worker_step b b' -> blocking_step b b'
| bstep_add_job b func arg job_size tp' ths' :
    ThreadPool_add_job (bpool b) func arg job_size = (true, tp') ->
    cond_signal (bthreads b) ths' ->
    blocking_step b
      (mkBlocking tp' ths' (mkJob func arg job_size :: baccepted b) (bcompleted b))
| bstep_add_job_rejected b func arg job_size tp' :
    ThreadPool_add_job (bpool b) func arg job_size = (false, tp') ->
    blocking_step b (mkBlocking tp' (bthreads b) (baccepted b) (bcompleted b))
| bstep_destroy b :
    blocking_step b
      (mkBlocking (ThreadPool_destroy_stop (bpool b)) (cond_broadcast (bthreads b))
         (baccepted b) (bcompleted b))
| bstep_spurious b (i : nat) :
    bthreads b !! i = Some Blocked ->
    blocking_step b
      (mkBlocking (bpool b) (<[i := Awake AtLoopTop]> (bthreads b)) (baccepted b)
         (bcompleted b)).

Inductive blocking_reachable (num : Z) : Blocking -> Prop :=
| blocking_create tp :
    ThreadPool_create num = Some tp ->
    blocking_reachable num (Blocking_create tp)
| blocking_reachable_step b b' :
    blocking_reachable num b -> blocking_step b b' -> blocking_reachable num b'.

(** What the signal keeps true: while a job is queued, some worker is
    awake and has not left its loop. *)
Definition awake_inv (b : Blocking) : Prop :=
  head (jobs (bpool b)) ≠ [] →
  ∃ (i : nat) w, bthreads b !! i = Some (Awake w) ∧ w ≠ Terminated.

(** How far the workers are from rest: 4 for a queued job, 3 for a job
    being run, 2 for a job not yet given back, 1 for an awake worker at the
    top of its loop. *)
Definition weight (t : thread) : nat :=
  match t with
  | Awake AtLoopTop => 1
  | Awake (InJob _) => 3
  | Awake (AfterJob _) => 2
  | Awake Terminated => 0
  | Blocked => 0
  end.

Definition work_left (b : Blocking) : nat :=
  4 * length (head (jobs (bpool b))) + sum_list_with weight (bthreads b).

(** A pool of one worker that was blocked on [has_job] when a job was
    accepted, and that the signal has woken. *)
Definition signalled_pool : Blocking :=
  mkBlocking (mkPool 1 0 (mkQueue [mkJob 1 2 3] 1) false) [Awake AtLoopTop]
    [mkJob 1 2 3] [].

End ThreadPool.

(** * Properties *)

(** ** C strings *)

Section CStringFacts.

Lemma uchar_range b : 0 <= uchar b < 256.
Proof.
  unfold uchar. pose proof (Byte.to_N_bounded b). lia.
Qed.

Lemma uchar_inj b1 b2 : uchar b1 = uchar b2 -> b1 = b2.
Proof.
  unfold uchar. intros H.
  assert (Hn : Byte.to_N b1 = Byte.to_N b2) by lia.
  pose proof (Byte.of_to_N b1) as H1. pose proof (Byte.of_to_N b2) as H2.
  rewrite Hn in H1. congruence.
Qed.

Lemma strdup_is_cstr s : is_cstr (strdup s).
Proof.
  unfold is_cstr. induction s as [|c s IH]; simpl; [constructor|].
  destruct (Z.eqb_spec (uchar c) 0); [constructor|]. by constructor.
Qed.

Lemma strdup_cstr s : is_cstr s -> strdup s = s.
Proof.
  unfold is_cstr. induction 1 as [|c s Hc _ IH]; simpl; [done|].
  destruct (Z.eqb_spec (uchar c) 0); [done|]. by rewrite IH.
Qed.

Lemma strdup_idemp s : strdup (strdup s) = strdup s.
Proof. apply strdup_cstr, strdup_is_cstr. Qed.

Lemma strlen_length s : strlen s = Z.of_nat (length (strdup s)).
Proof.
  induction s as [|c s IH]; simpl; [done|].
  destruct (Z.eqb_spec (uchar c) 0); simpl; lia.
Qed.

Lemma strlen_nonneg s : 0 <= strlen s.
Proof. rewrite strlen_length. lia. Qed.

Lemma strcmp_antisym s1 s2 : strcmp s2 s1 = - strcmp s1 s2.
Proof.
  revert s2. induction s1 as [|c1 t1 IH]; intros [|c2 t2]; simpl; try lia.
  destruct (Z.eqb_spec (uchar c1) (uchar c2)) as [E|E];
    destruct (Z.eqb_spec (uchar c2) (uchar c1)) as [E'|E']; try lia.
  rewrite E. destruct (Z.eqb_spec (uchar c2) 0); [lia|]. apply IH.
Qed.

Lemma strcmp_strdup_l s1 s2 : strcmp (strdup s1) s2 = strcmp s1 s2.
Proof.
  revert s2. induction s1 as [|c1 t1 IH]; intros s2; simpl; [done|].
  destruct (Z.eqb_spec (uchar c1) 0) as [E|E].
  - destruct s2 as [|c2 t2]; simpl; [lia|].
    rewrite E. destruct (Z.eqb_spec 0 (uchar c2)); simpl; lia.
  - destruct s2 as [|c2 t2]; simpl; [done|].
    destruct (Z.eqb_spec (uchar c1) (uchar c2)); [|done].
    destruct (Z.eqb_spec (uchar c1) 0); [done|]. apply IH.
Qed.

Lemma strcmp_strdup_r s1 s2 : strcmp s1 (strdup s2) = strcmp s1 s2.
Proof.
  rewrite (strcmp_antisym (strdup s2) s1), strcmp_strdup_l, <- strcmp_antisym. done.
Qed.

Lemma strcmp_refl s : strcmp s s = 0.
Proof.
  induction s as [|c t IH]; simpl; [done|].
  rewrite Z.eqb_refl. by destruct (uchar c =? 0).
Qed.

(** [strcmp] returns 0 exactly when the two C strings have the same
    characters. *)
Lemma strcmp_eq_iff s1 s2 : strcmp s1 s2 = 0 <-> strdup s1 = strdup s2.
Proof.
  split.
  - revert s2. induction s1 as [|c1 t1 IH]; intros [|c2 t2]; simpl; intros H.
    + done.
    + destruct (Z.eqb_spec (uchar c2) 0); [done|lia].
    + destruct (Z.eqb_spec (uchar c1) 0); [done|lia].
    + destruct (Z.eqb_spec (uchar c1) (uchar c2)) as [E|E]; [|lia].
      rewrite <- E. apply uchar_inj in E. subst c2.
      destruct (Z.eqb_spec (uchar c1) 0); [done|]. f_equal. by apply IH.
  - intros H. rewrite <- strcmp_strdup_l, H, strcmp_strdup_l. apply strcmp_refl.
Qed.

Lemma strcmp_eq_l s1 s2 s : strcmp s1 s2 = 0 -> strcmp s1 s = strcmp s2 s.
Proof.
  intros H%strcmp_eq_iff.
  by rewrite <- (strcmp_strdup_l s1), H, strcmp_strdup_l.
Qed.

Lemma strcmp_eq_r s1 s2 s : strcmp s1 s2 = 0 -> strcmp s s1 = strcmp s s2.
Proof.
  intros H. rewrite (strcmp_antisym s1 s), (strcmp_antisym s2 s).
  f_equal. by apply strcmp_eq_l.
Qed.

(** Byte order on C strings is transitive. *)
Lemma strcmp_le_trans s1 s2 s3 :
  strcmp s1 s2 <= 0 -> strcmp s2 s3 <= 0 -> strcmp s1 s3 <= 0.
Proof.
  revert s2 s3. induction s1 as [|c1 t1 IH]; intros [|c2 t2] [|c3 t3]; simpl;
    try (pose proof (uchar_range c1)); try (pose proof (uchar_range c2));
    try (pose proof (uchar_range c3)); try lia.
  - destruct (Z.eqb_spec (uchar c1) (uchar c3)); [|lia].
    destruct (Z.eqb_spec (uchar c1) 0); lia.
  - destruct (Z.eqb_spec (uchar c1) (uchar c2)); [|lia].
    destruct (Z.eqb_spec (uchar c1) 0); lia.
  - destruct (Z.eqb_spec (uchar c1) (uchar c2)) as [E12|E12];
      destruct (Z.eqb_spec (uchar c2) (uchar c3)) as [E23|E23];
      destruct (Z.eqb_spec (uchar c1) (uchar c3)) as [E13|E13]; try lia.
    destruct (Z.eqb_spec (uchar c1) 0); destruct (Z.eqb_spec (uchar c2) 0);
      try lia. apply IH.
Qed.

End CStringFacts.

(** ** The partition store *)

Module MapReduceProps.

Import MapReduce.

Section Partitioner.

Variable char_signed : bool.

Lemma to_ulong_range x : 0 <= to_ulong x < 2 ^ 64.
Proof. unfold to_ulong. apply Z.mod_pos_bound. lia. Qed.

(** [((hash << 5) + hash) + c] in [unsigned long] is [hash * 33 + c]
    modulo [2^64]. *)
Lemma hash_step h c :
  0 <= h ->
  to_ulong (to_ulong (to_ulong (Z.shiftl h 5) + h) + to_ulong c)
  = to_ulong (h * 33 + c).
Proof.
  intros Hh. unfold to_ulong. rewrite Z.shiftl_mul_pow2 by lia.
  rewrite Z.add_mod_idemp_l by lia.
  rewrite Z.add_mod_idemp_r by lia.
  rewrite <- Z.add_assoc, Z.add_mod_idemp_l by lia.
  f_equal. lia.
Qed.

Lemma char_to_int_zero b : char_to_int char_signed b = 0 <-> uchar b = 0.
Proof.
  unfold char_to_int. pose proof (uchar_range b).
  destruct char_signed; simpl; [|done].
  destruct (Z.leb_spec 128 (uchar b)); lia.
Qed.

Lemma char_to_int_uchar b :
  char_signed = false \/ uchar b < 128 -> char_to_int char_signed b = uchar b.
Proof.
  unfold char_to_int. intros [->|H]; [done|].
  destruct (Z.leb_spec 128 (uchar b)); [lia|]. by rewrite andb_false_r.
Qed.

(** The hash reads the key up to its terminator only. *)
Lemma MR_Partitioner_loop_strdup key h :
  MR_Partitioner_loop char_signed (strdup key) h
  = MR_Partitioner_loop char_signed key h.
Proof.
  revert h. induction key as [|b key IH]; intros h; simpl; [done|].
  destruct (Z.eqb_spec (uchar b) 0) as [E|E].
  - apply char_to_int_zero in E. by rewrite E.
  - simpl. destruct (Z.eqb_spec (char_to_int char_signed b) 0) as [E'|E'].
    + by apply char_to_int_zero in E'.
    + apply IH.
Qed.

Lemma MR_Partitioner_strdup key P :
  MR_Partitioner char_signed (strdup key) P = MR_Partitioner char_signed key P.
Proof. unfold MR_Partitioner. by rewrite MR_Partitioner_loop_strdup. Qed.

(** Keys that [strcmp] finds equal hash to the same partition. *)
Lemma MR_Partitioner_strcmp key1 key2 P :
  strcmp key1 key2 = 0 ->
  MR_Partitioner char_signed key1 P = MR_Partitioner char_signed key2 P.
Proof.
  intros H%strcmp_eq_iff.
  by rewrite <- (MR_Partitioner_strdup key1), H, MR_Partitioner_strdup.
Qed.

(** The partition index is inside the array. *)
Lemma MR_Partitioner_range key P :
  1 <= P <= UINT_MAX ->
  0 <= MR_Partitioner char_signed key P < P.
Proof.
  unfold MR_Partitioner, to_uint, UINT_MAX. intros HP.
  pose proof (Z.mod_pos_bound (MR_Partitioner_loop char_signed key 5381) P).
  rewrite Z.mod_small; lia.
Qed.

Lemma MR_Partitioner_loop_djb2 key h :
  0 <= h ->
  char_signed = false \/ is_ascii (strdup key) ->
  MR_Partitioner_loop char_signed key h = djb2_spec (strdup key) h.
Proof.
  revert h. induction key as [|b key IH]; intros h Hh Hk; simpl; [done|].
  simpl in Hk.
  destruct (Z.eqb_spec (uchar b) 0) as [E|E].
  - apply char_to_int_zero in E. by rewrite E.
  - destruct (Z.eqb_spec (char_to_int char_signed b) 0) as [E'|E'].
    { by apply char_to_int_zero in E'. }
    simpl. rewrite hash_step by done.
    rewrite char_to_int_uchar.
    + apply IH; [apply to_ulong_range|].
      destruct Hk as [?|Hk]; [by left|right]. by inversion Hk.
    + destruct Hk as [?|Hk]; [by left|right]. by inversion Hk.
Qed.

Lemma MR_Partitioner_loop_char key h :
  0 <= h →
  MR_Partitioner_loop char_signed key h = djb2_char char_signed (strdup key) h.
Proof.
  revert h. induction key as [|b key IH]; intros h Hh; simpl; [done|].
  destruct (Z.eqb_spec (uchar b) 0) as [E|E].
  - apply char_to_int_zero in E. by rewrite E.
  - destruct (Z.eqb_spec (char_to_int char_signed b) 0) as [E'|E'].
    { by apply char_to_int_zero in E'. }
    simpl. rewrite hash_step by done. unfold char_to_int.
    apply IH, to_ulong_range.
Qed.

(** C2 (as amended).  For every key and every partition count
    [1 <= P <= UINT_MAX], [MR_Partitioner key P] is the djb2 hash with the
    bytes of the key read through plain [char]: start at 5381,
    [h = h*33 + c] for each byte in 64-bit unsigned arithmetic, reduced mod
    [P], where a byte [c] of 128 or more is added as [c - 256] on a
    platform with signed [char].  So it is the djb2 hash of the
    specification when plain [char] is unsigned or every byte of the key
    is below 128. *)
Theorem C2_partitioner_is_djb2 key P :
  1 <= P <= UINT_MAX →
  MR_Partitioner char_signed key P = partitioner_char char_signed key P
  ∧ (char_signed = false ∨ is_ascii (strdup key) →
     MR_Partitioner char_signed key P = partitioner_spec key P).
Proof.
  intros HP. unfold MR_Partitioner, partitioner_char, partitioner_spec, to_uint.
  unfold UINT_MAX in HP. split.
  - rewrite MR_Partitioner_loop_char by lia.
    pose proof (Z.mod_pos_bound (djb2_char char_signed (strdup key) 5381) P).
    rewrite Z.mod_small; lia.
  - intros Hk. rewrite MR_Partitioner_loop_djb2 by (done || lia).
    pose proof (Z.mod_pos_bound (djb2_spec (strdup key) 5381) P).
    rewrite Z.mod_small; lia.
Qed.

End Partitioner.

Section InsertSorted.

#[local] Instance key_le_trans : Transitive key_le.
Proof. intros a b c. unfold key_le. apply strcmp_le_trans. Qed.

(** The head test of [insert_sorted] is the loop test, one node early. *)
Lemma insert_sorted_eq_loop head pair :
  insert_sorted head pair = insert_sorted_loop head pair.
Proof.
  destruct head as [|h next]; simpl; [done|].
  destruct (Z.leb_spec 0 (strcmp (key h) (key pair)));
    destruct (Z.ltb_spec (strcmp (key h) (key pair)) 0); done || lia.
Qed.

(** Where the new pair goes: after the longest run of leading pairs with a
    strictly smaller key, and before everything else. *)
Lemma insert_sorted_split head pair :
  ∃ l1 l2,
    head = l1 ++ l2
    ∧ insert_sorted head pair = l1 ++ pair :: l2
    ∧ Forall (λ e, strcmp (key e) (key pair) < 0) l1
    ∧ (∀ n l2', l2 = n :: l2' → 0 <= strcmp (key n) (key pair)).
Proof.
  rewrite insert_sorted_eq_loop.
  induction head as [|h next IH]; simpl.
  - exists [], []. by repeat split.
  - destruct (Z.ltb_spec (strcmp (key h) (key pair)) 0) as [Hlt|Hge].
    + destruct IH as (l1 & l2 & -> & -> & Hl1 & Hl2).
      exists (h :: l1), l2. repeat split; [by constructor|done].
    + exists [], (h :: next). repeat split; [done|].
      intros n l2' [= <- <-]. done.
Qed.

Lemma insert_sorted_perm head pair : insert_sorted head pair ≡ₚ pair :: head.
Proof.
  destruct (insert_sorted_split head pair) as (l1 & l2 & -> & -> & _).
  by rewrite Permutation_middle.
Qed.

Lemma insert_sorted_loop_HdRel a next pair :
  HdRel key_le a next → key_le a pair →
  HdRel key_le a (insert_sorted_loop next pair).
Proof.
  intros Hhd Ha. destruct next as [|n next]; simpl; [by constructor|].
  destruct (strcmp (key n) (key pair) <? 0); constructor; [|done].
  by inversion Hhd.
Qed.

(** [insert_sorted] keeps a sorted list sorted. *)
Lemma insert_sorted_Sorted head pair :
  Sorted key_le head → Sorted key_le (insert_sorted head pair).
Proof.
  rewrite insert_sorted_eq_loop.
  induction 1 as [|h next Hs IH Hhd]; simpl; [by repeat constructor|].
  destruct (Z.ltb_spec (strcmp (key h) (key pair)) 0) as [Hlt|Hge].
  - constructor; [done|]. apply insert_sorted_loop_HdRel; [done|].
    unfold key_le. lia.
  - constructor; [by constructor|]. constructor.
    unfold key_le. rewrite strcmp_antisym. lia.
Qed.

(** In a sorted list, every pair is at least the head. *)
Lemma Sorted_head_le a l kv :
  Sorted key_le (a :: l) → kv ∈ l → key_le a kv.
Proof.
  intros Hs Hin. apply Sorted_StronglySorted in Hs; [|exact key_le_trans].
  apply StronglySorted_inv in Hs as [_ Hall].
  rewrite Forall_forall in Hall. by apply Hall.
Qed.

End InsertSorted.

Section Store.

Variable char_signed : bool.

Abbreviation MR_Emit := (MR_Emit char_signed).
Abbreviation do_call := (do_call char_signed).
Abbreviation do_calls := (do_calls char_signed).
Abbreviation call_on_partition := (call_on_partition char_signed).
Abbreviation partition_after := (partition_after char_signed).
Abbreviation emitted_pairs := (emitted_pairs char_signed).
Abbreviation MR_Partitioner := (MR_Partitioner char_signed).

Lemma num_partitions_MR_Emit key value s :
  num_partitions (MR_Emit key value s) = num_partitions s.
Proof.
  unfold MapReduce.MR_Emit. destruct key, value; try done.
  destruct (num_partitions s =? 0); [done|].
  by destruct (partitions s !! _).
Qed.

Lemma num_partitions_MR_GetNext key partition_idx s :
  num_partitions (snd (MR_GetNext key partition_idx s)) = num_partitions s.
Proof.
  unfold MR_GetNext. destruct key; [|done].
  destruct (num_partitions s <=? partition_idx); [done|].
  destruct (partitions s !! _) as [partition|]; [|done].
  destruct (head partition) as [|kv next]; [done|].
  by destruct (negb _).
Qed.

(** What [MR_Emit] does to the partition at index [p]. *)
Lemma lookup_MR_Emit key value s p :
  partitions (MR_Emit key value s) !! p
  = call_on_partition (num_partitions s) p (Emit key value) <$> partitions s !! p.
Proof.
  unfold MapReduce.MR_Emit, MapReduce.call_on_partition.
  destruct key as [key|], value as [value|];
    try by destruct (partitions s !! p).
  set (idx := Z.to_nat (MR_Partitioner key (num_partitions s))).
  destruct (Z.eqb_spec (num_partitions s) 0) as [E|E].
  { case_decide; [tauto|]. by destruct (partitions s !! p). }
  case_decide as Hp.
  - destruct Hp as [_ <-].
    destruct (partitions s !! idx) as [partition|] eqn:Hidx; simpl; [|by rewrite Hidx].
    by rewrite list_lookup_insert_eq by (by eapply lookup_lt_Some).
  - assert (idx ≠ p) by tauto.
    destruct (partitions s !! idx) as [partition|] eqn:Hidx; simpl.
    + rewrite list_lookup_insert_ne by done. by destruct (partitions s !! p).
    + by destruct (partitions s !! p).
Qed.

(** What [MR_GetNext] does to the partition at index [p]. *)
Lemma lookup_MR_GetNext key partition_idx s p :
  partitions (snd (MR_GetNext key partition_idx s)) !! p
  = call_on_partition (num_partitions s) p (GetNext key partition_idx)
      <$> partitions s !! p.
Proof.
  unfold MR_GetNext, MapReduce.call_on_partition.
  destruct key as [key|]; [|simpl; by destruct (partitions s !! p)].
  destruct (Z.leb_spec (num_partitions s) partition_idx) as [Hge|Hlt].
  { case_decide; [lia|]. simpl. by destruct (partitions s !! p). }
  case_decide as Hp.
  - destruct Hp as [_ <-]. unfold getnext_partition.
    destruct (partitions s !! Z.to_nat partition_idx) as [partition|] eqn:Hidx;
      simpl; [|by rewrite Hidx].
    destruct (head partition) as [|kv next]; simpl; [by rewrite Hidx|].
    destruct (negb (strcmp (MapReduce.key kv) key =? 0)); simpl; [by rewrite Hidx|].
    by rewrite list_lookup_insert_eq by (by eapply lookup_lt_Some).
  - assert (Z.to_nat partition_idx ≠ p) by tauto.
    destruct (partitions s !! Z.to_nat partition_idx) as [partition|] eqn:Hidx;
      simpl; [|by destruct (partitions s !! p)].
    destruct (head partition) as [|kv next]; simpl;
      [by destruct (partitions s !! p)|].
    destruct (negb (strcmp (MapReduce.key kv) key =? 0)); simpl;
      [by destruct (partitions s !! p)|].
    rewrite list_lookup_insert_ne by done. by destruct (partitions s !! p).
Qed.

Lemma num_partitions_do_call s c :
  num_partitions (do_call s c) = num_partitions s.
Proof.
  destruct c; simpl;
    [apply num_partitions_MR_Emit|apply num_partitions_MR_GetNext].
Qed.

Lemma lookup_do_call s c p :
  partitions (do_call s c) !! p
  = call_on_partition (num_partitions s) p c <$> partitions s !! p.
Proof.
  destruct c; simpl; [apply lookup_MR_Emit|apply lookup_MR_GetNext].
Qed.

Lemma do_calls_cons c calls s :
  do_calls (c :: calls) s = do_calls calls (do_call s c).
Proof. done. Qed.

Lemma do_calls_snoc calls c s :
  do_calls (calls ++ [c]) s = do_call (do_calls calls s) c.
Proof. unfold MapReduce.do_calls. by rewrite fold_left_app. Qed.

Lemma num_partitions_do_calls calls s :
  num_partitions (do_calls calls s) = num_partitions s.
Proof.
  revert s. induction calls as [|c calls IH]; intros s; [done|].
  by rewrite do_calls_cons, IH, num_partitions_do_call.
Qed.

Lemma lookup_do_calls calls s p :
  partitions (do_calls calls s) !! p
  = (λ partition,
       fold_left (λ partition c, call_on_partition (num_partitions s) p c partition)
         calls partition)
      <$> partitions s !! p.
Proof.
  revert s. induction calls as [|c calls IH]; intros s.
  { simpl. by destruct (partitions s !! p). }
  rewrite do_calls_cons, IH, lookup_do_call, num_partitions_do_call.
  by destruct (partitions s !! p).
Qed.

(** Every partition of a run is the partition the calls build from an
    empty one, and its index is below the partition count. *)
Lemma lookup_run P calls p partition :
  partitions (do_calls calls (MR_Run_init P)) !! p = Some partition →
  partition = partition_after P p calls ∧ (p < Z.to_nat P)%nat.
Proof.
  rewrite lookup_do_calls. simpl.
  destruct (replicate (Z.to_nat P) (mkPartition [] 0) !! p) as [part0|] eqn:H0;
    [|done].
  apply lookup_replicate in H0 as [-> Hlt]. simpl. by intros [= <-].
Qed.

Lemma lookup_run_Some P calls p :
  (p < Z.to_nat P)%nat →
  partitions (do_calls calls (MR_Run_init P)) !! p
  = Some (partition_after P p calls).
Proof.
  intros Hlt. rewrite lookup_do_calls. simpl.
  by rewrite lookup_replicate_2 by done.
Qed.

Lemma partition_after_snoc P p calls c :
  partition_after P p (calls ++ [c])
  = call_on_partition P p c (partition_after P p calls).
Proof. unfold MapReduce.partition_after. by rewrite fold_left_app. Qed.

Lemma emitted_pairs_snoc P p calls c :
  emitted_pairs P p (calls ++ [c])
  = emitted_pairs P p calls ++ emitted_pair char_signed P p c.
Proof.
  unfold MapReduce.emitted_pairs. rewrite flat_map_app. simpl.
  by rewrite app_nil_r.
Qed.

(** *** Invariants of one partition *)

Lemma getnext_partition_cases k partition :
  getnext_partition k partition = partition
  ∨ ∃ kv next,
      head partition = kv :: next ∧ has_key k kv
      ∧ getnext_partition k partition = mkPartition next (bytes partition).
Proof.
  unfold getnext_partition.
  destruct (head partition) as [|kv next] eqn:Hhead; [by left|].
  destruct (Z.eqb_spec (strcmp (key kv) k) 0) as [E|E]; simpl; [|by left].
  right. by exists kv, next.
Qed.

Lemma MR_Partitioner_nonneg k P : 0 <= MR_Partitioner k P.
Proof.
  unfold MapReduce.MR_Partitioner, to_uint. apply Z.mod_pos_bound. lia.
Qed.

Lemma partition_after_Sorted P p calls :
  Sorted key_le (head (partition_after P p calls)).
Proof.
  induction calls as [|c calls IH] using rev_ind; [constructor|].
  rewrite partition_after_snoc.
  destruct c as [[k|] [v|]|[k|] idx]; simpl; try done.
  - case_decide; [|done]. by apply insert_sorted_Sorted.
  - case_decide; [|done].
    destruct (getnext_partition_cases k (partition_after P p calls))
      as [->|(kv & next & Hhead & _ & ->)]; [done|].
    rewrite Hhead in IH. simpl. by apply Sorted_inv in IH as [? _].
Qed.

Lemma partition_after_keys P p calls :
  Forall (λ kv, MR_Partitioner (key kv) P = Z.of_nat p)
    (head (partition_after P p calls)).
Proof.
  induction calls as [|c calls IH] using rev_ind; [constructor|].
  rewrite partition_after_snoc.
  destruct c as [[k|] [v|]|[k|] idx]; simpl; try done.
  - case_decide as Hp; [|done]. simpl.
    destruct (insert_sorted_split (head (partition_after P p calls))
                (mkKVPair (strdup k) (strdup v)))
      as (l1 & l2 & Hl & -> & _).
    rewrite Hl in IH. apply Forall_app in IH as [IH1 IH2].
    apply Forall_app. split; [done|]. constructor; [|done].
    simpl. rewrite MR_Partitioner_strdup.
    pose proof (MR_Partitioner_nonneg k P). lia.
  - case_decide; [|done].
    destruct (getnext_partition_cases k (partition_after P p calls))
      as [->|(kv & next & Hhead & _ & ->)]; [done|].
    rewrite Hhead in IH. simpl. by apply Forall_cons in IH as [_ ?].
Qed.

Lemma sum_pair_bytes_app l1 l2 :
  sum_pair_bytes (l1 ++ l2) = sum_pair_bytes l1 + sum_pair_bytes l2.
Proof. induction l1 as [|x l1 IH]; simpl; lia. Qed.

Lemma sum_pair_bytes_perm l1 l2 :
  l1 ≡ₚ l2 → sum_pair_bytes l1 = sum_pair_bytes l2.
Proof. induction 1; simpl; lia. Qed.

(** The counter is the sum over every pair ever put into the partition,
    modulo [2^64]. *)
Lemma partition_after_bytes P p calls :
  bytes (partition_after P p calls)
  = to_ulong (sum_pair_bytes (emitted_pairs P p calls)).
Proof.
  induction calls as [|c calls IH] using rev_ind; [done|].
  rewrite partition_after_snoc, emitted_pairs_snoc, sum_pair_bytes_app.
  destruct c as [[k|] [v|]|[k|] idx]; simpl; rewrite ?Z.add_0_r; try done.
  - case_decide; simpl; rewrite ?Z.add_0_r; [|done].
    rewrite IH. unfold pair_bytes, to_ulong. simpl.
    rewrite Z.add_mod_idemp_r, Z.add_mod_idemp_l by lia.
    rewrite Z.add_assoc, <- (Z.add_assoc _ _ 2), (Z.add_comm _ 2), Z.add_assoc.
    rewrite Z.add_mod_idemp_r by lia.
    f_equal. lia.
  - case_decide; [|done].
    by destruct (getnext_partition_cases k (partition_after P p calls))
      as [->|(kv & next & _ & _ & ->)].
Qed.

(** While nothing is removed, the list holds every pair put into the
    partition. *)
Lemma partition_after_emits P p calls :
  Forall is_Emit calls →
  head (partition_after P p calls) ≡ₚ emitted_pairs P p calls.
Proof.
  induction calls as [|c calls IH] using rev_ind; [done|].
  intros [Hcalls Hc]%Forall_app. apply Forall_cons in Hc as [Hc _].
  rewrite partition_after_snoc, emitted_pairs_snoc.
  destruct c as [[k|] [v|]|]; simpl; rewrite ?app_nil_r; try by apply IH.
  - case_decide; simpl; rewrite ?app_nil_r; [|by apply IH].
    rewrite insert_sorted_perm, IH by done.
    by rewrite Permutation_cons_append.
  - done.
Qed.

Lemma Sorted_lookup_adjacent (l : list KVPair) i a b :
  Sorted key_le l → l !! i = Some a → l !! S i = Some b → key_le a b.
Proof.
  intros Hs. revert i. induction Hs as [|x l Hs IH Hhd]; intros i Ha Hb; [done|].
  destruct i as [|i]; simpl in *.
  - injection Ha as ->. destruct l as [|y l]; [done|].
    injection Hb as ->. by inversion Hhd.
  - by eapply IH.
Qed.

(** C3.  After any sequence of [MR_Emit] (and [MR_GetNext]) calls on the
    store that [MR_Run] sets up, the keys of every partition's list are
    non-decreasing under byte compare: any two adjacent pairs [a], [b]
    have [a.key <= b.key]. *)
Theorem C3_partition_keys_sorted P calls p partition i a b :
  partitions (do_calls calls (MR_Run_init P)) !! p = Some partition →
  head partition !! i = Some a →
  head partition !! S i = Some b →
  strcmp (key a) (key b) <= 0.
Proof.
  intros [-> _]%lookup_run Ha Hb.
  exact (Sorted_lookup_adjacent _ _ _ _ (partition_after_Sorted P p calls) Ha Hb).
Qed.

(** C8.  After any sequence of [MR_Emit] and [MR_GetNext] calls with
    partition count [P], every pair with key [k] that is in the list of
    partition [p] has [MR_Partitioner(k, P) == p]. *)
Theorem C8_pairs_in_their_partition P calls p partition kv :
  partitions (do_calls calls (MR_Run_init P)) !! p = Some partition →
  kv ∈ head partition →
  MR_Partitioner (key kv) P = Z.of_nat p.
Proof.
  intros [-> _]%lookup_run Hin.
  pose proof (partition_after_keys P p calls) as Hall.
  rewrite Forall_forall in Hall. by apply Hall.
Qed.

(** C4 (as amended).  For every partition, after any sequence of
    [MR_Emit] and [MR_GetNext] calls, the byte counter is the sum of
    [len(key) + len(value) + 2] over every pair emitted into the
    partition so far, modulo [2^64]: [MR_GetNext] removes a pair and
    leaves the counter as it is.  After emits only, that is the sum over
    the pairs in the partition's list. *)
Theorem C4_byte_counter P calls p partition :
  partitions (do_calls calls (MR_Run_init P)) !! p = Some partition →
  bytes partition = to_ulong (sum_pair_bytes (emitted_pairs P p calls))
  ∧ (Forall is_Emit calls →
     bytes partition = to_ulong (sum_pair_bytes (head partition))).
Proof.
  intros [-> _]%lookup_run. split; [apply partition_after_bytes|].
  intros Hemits. rewrite partition_after_bytes. f_equal.
  symmetry. by apply sum_pair_bytes_perm, partition_after_emits.
Qed.

(** C6.  [MR_Emit] with a null key, a null value or no partitions returns
    without changing the store, and [MR_GetNext] with a null key or a
    partition index at or above the partition count returns NULL without
    changing the store. *)
Theorem C6_invalid_arguments_ignored key value key' partition_idx s :
  key = None ∨ value = None ∨ num_partitions s = 0 →
  key' = None ∨ num_partitions s <= partition_idx →
  MR_Emit key value s = s
  ∧ MR_GetNext key' partition_idx s = (None, s).
Proof.
  intros Hemit Hget. split.
  - unfold MapReduce.MR_Emit. destruct key, value; try done.
    destruct (Z.eqb_spec (num_partitions s) 0); [done|].
    by destruct Hemit as [?|[?|?]].
  - unfold MR_GetNext. destruct key'; [|done].
    destruct (Z.leb_spec (num_partitions s) partition_idx); [done|].
    destruct Hget; [done|lia].
Qed.

(** *** Draining a key *)

Lemma MR_GetNext_None key partition_idx s s' :
  MR_GetNext key partition_idx s = (None, s') → s' = s.
Proof.
  unfold MR_GetNext. destruct key as [k|]; [|congruence].
  destruct (num_partitions s <=? partition_idx); [congruence|].
  destruct (partitions s !! _) as [partition|]; [|congruence].
  destruct (head partition) as [|kv next]; [congruence|].
  destruct (negb _); [congruence|done].
Qed.

(** When the loop of the reducer ends, [MR_GetNext] has nothing more for
    the key. *)
Lemma Reduce_loop_done fuel k partition_idx s values s' :
  Reduce_loop fuel k partition_idx s = Some (values, s') →
  MR_GetNext (Some k) partition_idx s' = (None, s').
Proof.
  revert s values. induction fuel as [|fuel IH]; intros s values; cbn [Reduce_loop]; [done|].
  destruct (MR_GetNext (Some k) partition_idx s) as [[v|] s1] eqn:Hget.
  - destruct (Reduce_loop fuel k partition_idx s1) as [[values1 s2]|] eqn:Hloop;
      [|done].
    intros [= <- <-]. by eapply IH.
  - intros [= <- <-]. by rewrite (MR_GetNext_None _ _ _ _ Hget) in Hget |- *.
Qed.

Lemma Reduce_loop_mono fuel fuel' k partition_idx s r :
  Reduce_loop fuel k partition_idx s = Some r →
  (fuel ≤ fuel')%nat →
  Reduce_loop fuel' k partition_idx s = Some r.
Proof.
  revert fuel' s r. induction fuel as [|fuel IH]; intros fuel' s r; cbn [Reduce_loop]; [done|].
  intros Hloop Hle. destruct fuel' as [|fuel']; [lia|]. cbn [Reduce_loop].
  destruct (MR_GetNext (Some k) partition_idx s) as [[v|] s1]; [|done].
  destruct (Reduce_loop fuel k partition_idx s1) as [[values1 s2]|] eqn:Hloop1;
    [|done].
  by rewrite (IH fuel' s1 _ Hloop1) by lia.
Qed.

(** The loop returns the values of the leading pairs with the key, head
    first, as soon as the fuel exceeds the length of the list. *)
Lemma Reduce_loop_take_key fuel k partition_idx s partition :
  0 <= partition_idx < num_partitions s →
  partitions s !! Z.to_nat partition_idx = Some partition →
  (length (head partition) < fuel)%nat →
  ∃ s', Reduce_loop fuel k partition_idx s
        = Some (value <$> take_key k (head partition), s').
Proof.
  revert s partition. induction fuel as [|fuel IH]; intros s partition Hidx Hp Hlen;
    [lia|].
  cbn [Reduce_loop]. unfold MR_GetNext.
  destruct (Z.leb_spec (num_partitions s) partition_idx); [lia|].
  rewrite Hp. destruct (head partition) as [|kv next] eqn:Hhead; simpl.
  { by eexists. }
  destruct (Z.eqb_spec (strcmp (key kv) k) 0) as [E|E]; simpl; [|by eexists].
  set (s1 := mkState _ _).
  destruct (IH s1 (mkPartition next (bytes partition))) as [s' ->].
  - done.
  - simpl. by rewrite list_lookup_insert_eq by (by eapply lookup_lt_Some).
  - simpl in *. lia.
  - by eexists.
Qed.

Lemma filter_has_key_nil k (l : list KVPair) :
  Forall (λ kv, ¬ has_key k kv) l → filter (has_key k) l = [].
Proof.
  induction 1 as [|kv l Hkv _ IH]; [done|].
  by rewrite filter_cons_False.
Qed.

(** In a sorted list with no key below [k], the pairs with the key [k]
    are the leading ones. *)
Lemma take_key_filter k l :
  Sorted key_le l →
  (∀ kv, kv ∈ l → 0 <= strcmp (key kv) k) →
  take_key k l = filter (has_key k) l.
Proof.
  induction l as [|kv next IH]; intros Hs Hge; [done|]. simpl.
  destruct (Z.eqb_spec (strcmp (key kv) k) 0) as [E|E].
  - rewrite filter_cons_True by done. f_equal. apply IH.
    + by apply Sorted_inv in Hs as [? _].
    + intros kv' Hin. apply Hge. by right.
  - rewrite filter_cons_False by done.
    symmetry. apply filter_has_key_nil, Forall_forall. intros e Hin He.
    pose proof (Sorted_head_le _ _ _ Hs Hin) as Hle.
    pose proof (Hge kv ltac:(left)) as Hkv.
    unfold key_le in Hle. unfold has_key in He.
    rewrite (strcmp_eq_r _ _ (key kv) He) in Hle. lia.
Qed.

(** Calls that leave the key [k] alone keep every pair emitted for [k]. *)
Lemma partition_after_has_key P p calls k :
  Forall (leaves_key k) calls →
  filter (has_key k) (head (partition_after P p calls))
  ≡ₚ filter (has_key k) (emitted_pairs P p calls).
Proof.
  induction calls as [|c calls IH] using rev_ind; [done|].
  intros [Hcalls Hc]%Forall_app. apply Forall_cons in Hc as [Hc _].
  rewrite partition_after_snoc, emitted_pairs_snoc, filter_app.
  destruct c as [[k1|] [v|]|[k1|] idx]; simpl; rewrite ?app_nil_r;
    try by apply IH.
  - case_decide; simpl; rewrite ?app_nil_r; [|by apply IH].
    rewrite insert_sorted_perm, !filter_cons, filter_nil.
    case_decide; rewrite IH by done;
      [apply Permutation_cons_append | by rewrite app_nil_r].
  - case_decide; [|by apply IH].
    destruct (getnext_partition_cases k1 (partition_after P p calls))
      as [->|(kv & next & Hhead & Hkv & ->)]; [by apply IH|].
    rewrite <- IH by done. rewrite Hhead. simpl.
    rewrite filter_cons_False; [done|].
    unfold has_key in *. simpl in Hc. intros Hk.
    apply Hc. by rewrite <- (strcmp_eq_l _ _ k Hkv).
Qed.

(** The values of the pairs emitted for [k] into [k]'s partition are the
    values emitted for [k]. *)
Lemma emitted_pairs_values P k calls :
  value <$> filter (has_key k)
              (emitted_pairs P (Z.to_nat (MR_Partitioner k P)) calls)
  = emitted_values P k calls.
Proof.
  unfold MapReduce.emitted_pairs, emitted_values.
  induction calls as [|c calls IH]; [done|].
  simpl. rewrite filter_app, fmap_app, IH. f_equal.
  destruct c as [[k1|] [v|]|]; simpl; try done.
  destruct (decide (strcmp k1 k = 0)) as [E|E].
  - rewrite (MR_Partitioner_strcmp char_signed _ _ P E).
    destruct (decide (P = 0)) as [->|HP].
    + rewrite !decide_False by tauto. done.
    + rewrite !decide_True by tauto.
      rewrite filter_cons_True; [done|].
      unfold has_key. simpl. by rewrite strcmp_strdup_l.
  - rewrite (decide_False (P := _ ∧ strcmp k1 k = 0)) by tauto.
    case_decide; [|done].
    rewrite filter_cons_False; [done|].
    unfold has_key. simpl. by rewrite strcmp_strdup_l.
Qed.

Lemma do_calls_app calls1 calls2 s :
  do_calls (calls1 ++ calls2) s = do_calls calls2 (do_calls calls1 s).
Proof. unfold MapReduce.do_calls. by rewrite fold_left_app. Qed.

Lemma insert_sorted_at_head l pair :
  (∀ kv, kv ∈ l → 0 <= strcmp (key kv) (key pair)) →
  insert_sorted l pair = pair :: l.
Proof.
  intros Hge. destruct l as [|h next]; simpl; [done|].
  pose proof (Hge h ltac:(left)).
  destruct (Z.leb_spec 0 (strcmp (key h) (key pair))); [done|lia].
Qed.

(** C1 (as amended).  For any key [k], after any sequence of [MR_Emit]
    calls and of [MR_GetNext] calls for other keys, if no pair with a key
    smaller than [k] is left in partition [MR_Partitioner(k, P)]
    ([MR_GetNext] only looks at the head of the list), then calling
    [MR_GetNext(k, MR_Partitioner(k, P))] until it returns NULL ends, and
    the values it returns are a permutation of the values emitted for
    [k] by the [MR_Emit] calls with non-null arguments; their number is
    the number of those calls. *)
Theorem C1_drain_returns_emitted_values P calls k :
  1 <= P <= UINT_MAX →
  Forall (leaves_key k) calls →
  none_below k (live_pairs (do_calls calls (MR_Run_init P)) (MR_Partitioner k P)) →
  ∃ fuel values s',
    Reduce_loop fuel k (MR_Partitioner k P) (do_calls calls (MR_Run_init P))
    = Some (values, s')
    ∧ MR_GetNext (Some k) (MR_Partitioner k P) s' = (None, s')
    ∧ values ≡ₚ emitted_values P k calls
    ∧ length values = length (emitted_values P k calls).
Proof.
  intros HP Hcalls Hge.
  pose proof (MR_Partitioner_range char_signed k P HP) as Hp.
  set (p := MR_Partitioner k P) in *.
  set (s := do_calls calls (MR_Run_init P)) in *.
  assert (Hlookup : partitions s !! Z.to_nat p
                    = Some (partition_after P (Z.to_nat p) calls)).
  { apply lookup_run_Some. lia. }
  unfold none_below, live_pairs in Hge. rewrite Hlookup, Forall_forall in Hge.
  destruct (Reduce_loop_take_key
              (S (length (head (partition_after P (Z.to_nat p) calls))))
              k p s (partition_after P (Z.to_nat p) calls)) as [s' Hloop].
  { unfold s. rewrite num_partitions_do_calls. simpl. lia. }
  { exact Hlookup. }
  { lia. }
  assert (Hperm : value <$> take_key k (head (partition_after P (Z.to_nat p) calls))
                  ≡ₚ emitted_values P k calls).
  { rewrite take_key_filter.
    - rewrite partition_after_has_key by done.
      unfold p. by rewrite emitted_pairs_values.
    - apply partition_after_Sorted.
    - exact Hge. }
  eexists _, _, s'. split; [exact Hloop|]. split; [by eapply Reduce_loop_done|].
  split; [done|]. by apply Permutation_length.
Qed.

(** Calls that leave the key [k] alone keep the pairs emitted for [k] in
    the list, the newest first: each emit puts its pair before the pairs
    with the same key. *)
Lemma partition_after_has_key_lifo P p calls k :
  Forall (leaves_key k) calls →
  filter (has_key k) (head (partition_after P p calls))
  = reverse (filter (has_key k) (emitted_pairs P p calls)).
Proof.
  induction calls as [|c calls IH] using rev_ind; [done|].
  intros [Hcalls Hc]%Forall_app. apply Forall_cons in Hc as [Hc _].
  rewrite partition_after_snoc, emitted_pairs_snoc, filter_app, reverse_app.
  destruct c as [[k1|] [v|]|[k1|] idx]; simpl; try by apply IH.
  - case_decide; simpl; [|by apply IH].
    set (pair := mkKVPair (strdup k1) (strdup v)).
    destruct (insert_sorted_split (head (partition_after P p calls)) pair)
      as (l1 & l2 & Hl & -> & Hl1 & _).
    rewrite <- IH by done. rewrite Hl, !filter_app, !filter_cons, filter_nil.
    case_decide as Hk; [|done].
    rewrite filter_has_key_nil; [done|].
    eapply Forall_impl; [exact Hl1|]. intros e He. unfold has_key in *.
    rewrite <- (strcmp_eq_r _ _ (key e) Hk). lia.
  - case_decide; [|by apply IH].
    destruct (getnext_partition_cases k1 (partition_after P p calls))
      as [->|(kv & next & Hhead & Hkv & ->)]; [by apply IH|].
    rewrite <- IH by done. rewrite Hhead. simpl.
    rewrite filter_cons_False; [done|].
    unfold has_key in *. simpl in Hc. intros Hk.
    apply Hc. by rewrite <- (strcmp_eq_l _ _ k Hkv).
Qed.

Lemma emitted_values_app P k calls1 calls2 :
  emitted_values P k (calls1 ++ calls2)
  = emitted_values P k calls1 ++ emitted_values P k calls2.
Proof. unfold emitted_values. by rewrite flat_map_app. Qed.

Lemma emitted_values_same_key P k values :
  P ≠ 0 →
  emitted_values P k ((λ v, Emit (Some k) (Some v)) <$> values)
  = strdup <$> values.
Proof.
  intros HP. induction values as [|v values IH]; [done|].
  unfold emitted_values in *. rewrite !fmap_cons. cbn [flat_map].
  rewrite IH. unfold emitted_value.
  by rewrite decide_True by (by rewrite strcmp_refl).
Qed.

(** C10 (as amended).  [insert_sorted] places the new pair behind pairs
    with a different key only, so before every pair already in the list
    whose key equals the new pair's key.  So when [MR_Emit] is called with
    one key [k] for the values [v1 ... vn], one call after another, in the
    middle of any other [MR_Emit] calls and [MR_GetNext] calls for other
    keys, and no pair with a key below [k] is left in the partition of [k]
    when the values are asked for ([MR_GetNext] only looks at the head of
    the list), then repeated [MR_GetNext] calls for [k] end and return the
    values stored for [k] newest first: the values emitted for [k] after
    [vn], then [vn ... v1], the reverse of the emission order, then the
    values emitted for [k] before [v1]. *)
Theorem C10_equal_keys_lifo P before values after k :
  1 <= P <= UINT_MAX →
  Forall (leaves_key k) before →
  Forall (leaves_key k) after →
  none_below k
    (live_pairs
       (do_calls (before ++ ((λ v, Emit (Some k) (Some v)) <$> values) ++ after)
          (MR_Run_init P))
       (MR_Partitioner k P)) →
  (∀ head pair, ∃ l1 l2,
      head = l1 ++ l2
      ∧ insert_sorted head pair = l1 ++ pair :: l2
      ∧ Forall (λ e, ¬ has_key (key pair) e) l1)
  ∧ ∃ fuel s',
      Reduce_loop fuel k (MR_Partitioner k P)
        (do_calls (before ++ ((λ v, Emit (Some k) (Some v)) <$> values) ++ after)
           (MR_Run_init P))
      = Some (reverse (emitted_values P k after)
              ++ reverse (strdup <$> values)
              ++ reverse (emitted_values P k before), s')
      ∧ MR_GetNext (Some k) (MR_Partitioner k P) s' = (None, s').
Proof.
  intros HP Hbefore Hafter Hge. split.
  { intros l pair.
    destruct (insert_sorted_split l pair) as (l1 & l2 & Hl & Hins & Hl1 & _).
    exists l1, l2. repeat split; [done..|].
    eapply Forall_impl; [exact Hl1|]. unfold has_key. simpl. lia. }
  pose proof (MR_Partitioner_range char_signed k P HP) as Hp.
  set (emits := (λ v, Emit (Some k) (Some v)) <$> values) in *.
  set (calls := before ++ emits ++ after) in *.
  set (p := MR_Partitioner k P) in *.
  assert (Hcalls : Forall (leaves_key k) calls).
  { unfold calls, emits. rewrite !Forall_app. repeat split; [done| |done].
    by apply Forall_fmap, Forall_true. }
  assert (Hlookup : partitions (do_calls calls (MR_Run_init P)) !! Z.to_nat p
                    = Some (partition_after P (Z.to_nat p) calls)).
  { apply lookup_run_Some. lia. }
  unfold none_below, live_pairs in Hge. rewrite Hlookup, Forall_forall in Hge.
  destruct (Reduce_loop_take_key
              (S (length (head (partition_after P (Z.to_nat p) calls))))
              k p (do_calls calls (MR_Run_init P))
              (partition_after P (Z.to_nat p) calls)) as [s' Hloop].
  { rewrite num_partitions_do_calls. simpl. lia. }
  { exact Hlookup. }
  { lia. }
  eexists _, s'. split; [|by eapply Reduce_loop_done].
  rewrite Hloop. do 2 f_equal.
  rewrite take_key_filter; [|apply partition_after_Sorted|exact Hge].
  rewrite partition_after_has_key_lifo by done.
  rewrite fmap_reverse. unfold p. rewrite emitted_pairs_values.
  unfold calls. rewrite !emitted_values_app, !reverse_app, <- app_assoc.
  unfold emits. rewrite emitted_values_same_key by lia. done.
Qed.

End Store.

(** C2, as stated, fails where plain [char] is signed (x86-64): for the
    key ["é"] in UTF-8, the bytes [0xC3 0xA9], and the ten partitions of the
    word-count driver, the code sign-extends both bytes. *)
Lemma C2_counterexample :
  MR_Partitioner true [xc3; xa9] 10 = 9
  /\ partitioner_spec [xc3; xa9] 10 = 3
  /\ MR_Partitioner true [xc3; xa9] 10 ≠ partitioner_spec [xc3; xa9] 10.
Proof. repeat split; vm_compute; (reflexivity || discriminate). Qed.

Lemma C2_partitioner_is_djb2_witness :
  1 <= 10 <= UINT_MAX
  /\ MR_Partitioner true [xc3; xa9] 10 = partitioner_char true [xc3; xa9] 10
  /\ (true = false \/ is_ascii (strdup (bytes_of "hello")))
  /\ MR_Partitioner true (bytes_of "hello") 10 = partitioner_spec (bytes_of "hello") 10.
Proof.
  assert (H1 : 1 <= 10 <= UINT_MAX) by (unfold UINT_MAX; lia).
  assert (H2 : true = false \/ is_ascii (strdup (bytes_of "hello"))).
  { right. repeat constructor. }
  split; [exact H1|].
  split; [exact (proj1 (C2_partitioner_is_djb2 true [xc3; xa9] 10 H1))|].
  split; [exact H2|].
  exact (proj2 (C2_partitioner_is_djb2 true (bytes_of "hello") 10 H1) H2).
Defined.

(** *** More on the partition store *)

Section StoreMore.

Variable char_signed : bool.

Abbreviation MR_Emit := (MR_Emit char_signed).
Abbreviation do_calls := (do_calls char_signed).
Abbreviation partition_after := (partition_after char_signed).
Abbreviation emitted_pairs := (emitted_pairs char_signed).
Abbreviation MR_Partitioner := (MR_Partitioner char_signed).

#[local] Instance str_le_trans : Transitive str_le.
Proof. intros a b c. unfold str_le. apply strcmp_le_trans. Qed.

(** The keys in the store are copies made by [strdup]: they hold no NUL. *)
Lemma partition_after_cstr P p calls :
  Forall (λ kv, is_cstr (key kv)) (head (partition_after P p calls)).
Proof.
  induction calls as [|c calls IH] using rev_ind; [constructor|].
  rewrite partition_after_snoc.
  destruct c as [[k|] [v|]|[k|] i]; simpl; try done.
  - case_decide; [|done]. simpl.
    destruct (insert_sorted_split (head (partition_after P p calls))
                (mkKVPair (strdup k) (strdup v)))
      as (l1 & l2 & Hl & -> & _).
    rewrite Hl in IH. apply Forall_app in IH as [IH1 IH2].
    apply Forall_app. split; [done|]. constructor; [|done].
    simpl. apply strdup_is_cstr.
  - case_decide; [|done].
    destruct (getnext_partition_cases k (partition_after P p calls))
      as [->|(kv & next & Hhead & _ & ->)]; [done|].
    rewrite Hhead in IH. simpl. by apply Forall_cons in IH as [_ ?].
Qed.

(** X1.  Every [MR_Emit] with non-null arguments on a store of
    [1 <= P <= UINT_MAX] partitions stays inside the partition array and
    stores exactly one pair: the partition [MR_Partitioner(key, P)] holds
    the pairs it held and the copy of the new pair, and no other partition
    changes. *)
Theorem X1_emit_stores_one_pair P calls k v :
  1 <= P <= UINT_MAX →
  ∃ partition partition',
    partitions (do_calls calls (MR_Run_init P)) !! Z.to_nat (MR_Partitioner k P)
    = Some partition
    ∧ partitions (MR_Emit (Some k) (Some v) (do_calls calls (MR_Run_init P)))
        !! Z.to_nat (MR_Partitioner k P)
      = Some partition'
    ∧ head partition' ≡ₚ mkKVPair (strdup k) (strdup v) :: head partition
    ∧ ∀ j, j ≠ Z.to_nat (MR_Partitioner k P) →
        partitions (MR_Emit (Some k) (Some v) (do_calls calls (MR_Run_init P))) !! j
        = partitions (do_calls calls (MR_Run_init P)) !! j.
Proof.
  intros HP. pose proof (MR_Partitioner_range char_signed k P HP) as Hp.
  assert (Hlt : (Z.to_nat (MR_Partitioner k P) < Z.to_nat P)%nat) by lia.
  pose proof (lookup_run_Some char_signed P calls _ Hlt) as Hlookup.
  exists (partition_after P (Z.to_nat (MR_Partitioner k P)) calls),
    (emit_partition k v (partition_after P (Z.to_nat (MR_Partitioner k P)) calls)).
  split; [exact Hlookup|].
  assert (Hnum : num_partitions (do_calls calls (MR_Run_init P)) = P).
  { by rewrite num_partitions_do_calls. }
  split; [|split].
  - rewrite lookup_MR_Emit, Hlookup, Hnum. unfold call_on_partition.
    case_decide as Hd; [done|]. exfalso. apply Hd. split; [lia|done].
  - apply insert_sorted_perm.
  - intros j Hj. rewrite lookup_MR_Emit, Hnum. unfold call_on_partition.
    case_decide as Hd; [by destruct Hd as [_ ?]|].
    by destruct (partitions _ !! j).
Qed.

(** X2.  For [1 <= P <= UINT_MAX], [MR_Partitioner(key, P)] is an index
    below [P], and two keys that [strcmp] finds equal get the same index:
    all the pairs of one key go to one partition. *)
Theorem X2_partitioner_in_range_and_by_key P k1 k2 :
  1 <= P <= UINT_MAX →
  strcmp k1 k2 = 0 →
  0 <= MR_Partitioner k1 P < P
  ∧ MR_Partitioner k1 P = MR_Partitioner k2 P.
Proof.
  intros HP Hk. split; [by apply MR_Partitioner_range|].
  by apply MR_Partitioner_strcmp.
Qed.

(** X3.  The store the map phase builds does not depend on the order in
    which the emits arrive: for two sequences of [MR_Emit] calls that are
    permutations of each other, every partition ends with the same
    sequence of keys, the same multiset of pairs and the same byte
    counter.  Only the order of the values under one key can differ. *)
Theorem X3_emit_order_irrelevant P calls1 calls2 p partition1 partition2 :
  Forall is_Emit calls1 →
  calls1 ≡ₚ calls2 →
  partitions (do_calls calls1 (MR_Run_init P)) !! p = Some partition1 →
  partitions (do_calls calls2 (MR_Run_init P)) !! p = Some partition2 →
  key <$> head partition1 = key <$> head partition2
  ∧ head partition1 ≡ₚ head partition2
  ∧ bytes partition1 = bytes partition2.
Proof.
  intros Hemits1 Hperm [-> _]%lookup_run [-> _]%lookup_run.
  assert (Hemits2 : Forall is_Emit calls2) by (by rewrite <- Hperm).
  assert (Hpairs : emitted_pairs P p calls1 ≡ₚ emitted_pairs P p calls2).
  { unfold MapReduce.emitted_pairs. by rewrite Hperm. }
  assert (Hheads : head (partition_after P p calls1)
                   ≡ₚ head (partition_after P p calls2)).
  { by rewrite !partition_after_emits, Hpairs. }
  split; [|split; [done|]].
  - apply (Sorted_unique_strong str_le).
    + intros k1 k2 (kv1 & -> & Hin1)%list_elem_of_fmap
        (kv2 & -> & Hin2)%list_elem_of_fmap H12 H21.
      unfold str_le in *. rewrite (strcmp_antisym (key kv1)) in H21.
      assert (Heq : strcmp (key kv1) (key kv2) = 0) by lia.
      apply strcmp_eq_iff in Heq.
      pose proof (partition_after_cstr P p calls1) as Hc1.
      pose proof (partition_after_cstr P p calls2) as Hc2.
      rewrite Forall_forall in Hc1, Hc2.
      by rewrite <- (strdup_cstr (key kv1)), <- (strdup_cstr (key kv2)), Heq
        by auto.
    + eapply Sorted_fmap; [|apply partition_after_Sorted]. done.
    + eapply Sorted_fmap; [|apply partition_after_Sorted]. done.
    + by rewrite Hheads.
  - by rewrite !partition_after_bytes, (sum_pair_bytes_perm _ _ Hpairs).
Qed.

(** *** The reduce job *)

Abbreviation call_on_partition := (call_on_partition char_signed).

(** The loop of the reducer is a sequence of [MR_GetNext] calls. *)
Lemma Reduce_loop_do_calls fuel k i s values s' :
  Reduce_loop fuel k i s = Some (values, s') →
  s' = do_calls (replicate (length values) (GetNext (Some k) i)) s.
Proof.
  revert s values. induction fuel as [|fuel IH]; intros s values;
    cbn [Reduce_loop]; [done|].
  destruct (MR_GetNext (Some k) i s) as [[v|] s1] eqn:Hget.
  - destruct (Reduce_loop fuel k i s1) as [[values1 s2]|] eqn:Hloop; [|done].
    intros [= <- <-]. cbn [length replicate]. rewrite do_calls_cons.
    rewrite (IH _ _ Hloop). f_equal. cbn [MapReduce.do_call]. by rewrite Hget.
  - intros [= <- <-]. by rewrite (MR_GetNext_None _ _ _ _ Hget).
Qed.

Lemma filter_take_key k l : filter (has_key k) (take_key k l) = take_key k l.
Proof.
  induction l as [|kv l IH]; simpl; [done|].
  destruct (Z.eqb_spec (strcmp (key kv) k) 0) as [E|E]; [|done].
  by rewrite filter_cons_True, IH.
Qed.

Lemma take_key_drop k l : take_key k l ++ drop (length (take_key k l)) l = l.
Proof.
  induction l as [|kv l IH]; simpl; [done|].
  destruct (strcmp (key kv) k =? 0); simpl; [by rewrite IH|done].
Qed.

(** [m] calls of [MR_GetNext] for [k] take the first [m] pairs, as long
    as those have the key. *)
Lemma partition_after_getnexts P calls k i m :
  i < P →
  (m ≤ length (take_key k (head (partition_after P (Z.to_nat i) calls))))%nat →
  head (partition_after P (Z.to_nat i) (calls ++ replicate m (GetNext (Some k) i)))
  = drop m (head (partition_after P (Z.to_nat i) calls))
  ∧ bytes (partition_after P (Z.to_nat i) (calls ++ replicate m (GetNext (Some k) i)))
    = bytes (partition_after P (Z.to_nat i) calls).
Proof.
  intros Hi. induction m as [|m IH]; intros Hm.
  { simpl. by rewrite app_nil_r. }
  rewrite replicate_S_end, app_assoc, partition_after_snoc.
  destruct IH as [IHh IHb]; [lia|].
  unfold MapReduce.call_on_partition. rewrite decide_True by done.
  unfold getnext_partition. rewrite IHh.
  set (l := head (partition_after P (Z.to_nat i) calls)) in *.
  assert (Hdrop : ∃ kv, drop m l = kv :: drop (S m) l ∧ strcmp (key kv) k = 0).
  { clearbody l. clear -Hm. revert m Hm.
    induction l as [|kv l IH]; intros m Hm; simpl in *; [lia|].
    destruct (Z.eqb_spec (strcmp (key kv) k) 0) as [E|E]; simpl in *; [|lia].
    destruct m as [|m]; simpl; [by exists kv|]. apply IH. lia. }
  destruct Hdrop as (kv & -> & Hkv). rewrite Hkv. simpl. by rewrite IHb.
Qed.

Lemma lines_count_app k lines1 lines2 :
  lines_count k (lines1 ++ lines2) = lines_count k lines1 + lines_count k lines2.
Proof. induction lines1 as [|ln lines1 IH]; simpl; lia. Qed.

Lemma take_key_length k l : (length (take_key k l) ≤ length l)%nat.
Proof.
  pose proof (f_equal length (take_key_drop k l)) as Hlen.
  rewrite length_app in Hlen. lia.
Qed.

(** A partition holds at most one pair for each call made. *)
Lemma partition_after_length P p calls :
  (length (head (partition_after P p calls)) ≤ length calls)%nat.
Proof.
  induction calls as [|c calls IH] using rev_ind; [done|].
  rewrite partition_after_snoc, length_app. simpl.
  destruct c as [[k1|] [v|]|[k1|] idx]; simpl; try lia.
  - case_decide; simpl; [|lia]. rewrite insert_sorted_perm. simpl. lia.
  - case_decide; [|lia].
    destruct (getnext_partition_cases k1 (partition_after P p calls))
      as [->|(kv & next & Hhead & _ & ->)]; [lia|].
    rewrite Hhead in IH. simpl in *. lia.
Qed.

(** The reduce job on a partition whose list has at most [n] pairs, where
    an [int] can hold [n] and the partition index. *)
Lemma MR_Reduce_Reduce_aux P i n :
  0 <= i < P → i <= INT_MAX →
  ∀ calls out fuel rfuel,
    (length (head (partition_after P (Z.to_nat i) calls)) ≤ n)%nat →
    Z.of_nat n <= INT_MAX →
    (n < fuel)%nat → (n < rfuel)%nat →
    ∃ gets lines,
      MR_Reduce fuel (Reduce rfuel) i (do_calls calls (MR_Run_init P), out)
      = Some (do_calls (calls ++ gets) (MR_Run_init P), out ++ lines)
      ∧ Forall (is_GetNext_at i) gets
      ∧ head (partition_after P (Z.to_nat i) (calls ++ gets)) = []
      ∧ bytes (partition_after P (Z.to_nat i) (calls ++ gets))
        = bytes (partition_after P (Z.to_nat i) calls)
      ∧ Forall (λ ln, file ln = i ∧ 0 < count ln
                      ∧ ∃ kv, kv ∈ head (partition_after P (Z.to_nat i) calls)
                              ∧ strcmp (word ln) (key kv) = 0) lines
      ∧ Sorted word_lt lines
      ∧ ∀ k, lines_count k lines
             = Z.of_nat (length (filter (has_key k)
                                   (head (partition_after P (Z.to_nat i) calls)))).
Proof.
  intros Hi Hint.
  induction n as [|n IH]; intros calls out fuel rfuel Hlen Hn Hfuel Hrfuel;
    (destruct fuel as [|fuel]; [lia|]); cbn [MR_Reduce fst];
    rewrite (lookup_run_Some char_signed P calls (Z.to_nat i)) by lia;
    set (l := head (partition_after P (Z.to_nat i) calls)) in *.
  - destruct l as [|kv l'] eqn:Hl; [|simpl in Hlen; lia].
    exists [], []. rewrite !app_nil_r. fold l. rewrite Hl.
    repeat split; try done; constructor.
  - destruct l as [|kv l'] eqn:Hl.
    { exists [], []. rewrite !app_nil_r. fold l. rewrite Hl.
      repeat split; try done; constructor. }
    rewrite <- Hl in *. set (k0 := strdup (key kv)).
    (* the call of the reducer *)
    unfold Reduce at 1. cbn [fst snd].
    destruct (Reduce_loop_take_key rfuel k0 i (do_calls calls (MR_Run_init P))
                (partition_after P (Z.to_nat i) calls)) as [s1 Hloop].
    { rewrite num_partitions_do_calls. simpl. lia. }
    { apply lookup_run_Some. lia. }
    { fold l. lia. }
    fold l in Hloop. rewrite Hloop.
    assert (Hcnt : (Z.of_nat (length (value <$> take_key k0 l)) <=? INT_MAX)
                   && (i <=? INT_MAX) = true).
    { apply andb_true_intro. split; apply Z.leb_le; [|done].
      rewrite length_fmap. pose proof (take_key_length k0 l). lia. }
    rewrite Hcnt.
    pose proof (Reduce_loop_do_calls _ _ _ _ _ _ Hloop) as Hs1.
    rewrite length_fmap, <- do_calls_app in Hs1.
    set (m := length (take_key k0 l)) in *.
    set (gets1 := replicate m (GetNext (Some k0) i)) in *.
    (* the pairs taken and the pairs left *)
    assert (Hsorted : Sorted key_le l) by apply partition_after_Sorted.
    assert (Hkv : strcmp (key kv) k0 = 0).
    { unfold k0. by rewrite strcmp_strdup_r, strcmp_refl. }
    assert (Hbelow : ∀ e, e ∈ l → 0 <= strcmp (key e) k0).
    { intros e He. unfold k0. rewrite strcmp_strdup_r. rewrite Hl in He, Hsorted.
      apply elem_of_cons in He as [->|He]; [by rewrite strcmp_refl|].
      pose proof (Sorted_head_le _ _ _ Hsorted He) as Hle. unfold key_le in Hle.
      rewrite strcmp_antisym. lia. }
    pose proof (take_key_filter k0 l Hsorted Hbelow) as Htake.
    pose proof (take_key_drop k0 l) as Hsplit. fold m in Hsplit.
    assert (Hm : (1 ≤ m)%nat).
    { unfold m. rewrite Hl. simpl. rewrite Hkv. simpl. lia. }
    destruct (partition_after_getnexts P calls k0 i m) as [Hl1 Hb1]; [lia|done|].
    fold l gets1 in Hl1, Hb1.
    set (l1 := drop m l) in *.
    assert (Habove : ∀ e, e ∈ l1 → 0 < strcmp (key e) k0).
    { intros e He.
      assert (Hne : ¬ has_key k0 e).
      { intros Hk. assert (Hin : e ∈ filter (has_key k0) l1)
          by (by apply list_elem_of_filter).
        assert (Hnil : filter (has_key k0) l1 = []).
        { pose proof (f_equal (λ x, length (filter (has_key k0) x)) Hsplit) as Hlen'.
          simpl in Hlen'.
          rewrite filter_app, length_app, filter_take_key, <- Htake in Hlen'.
          apply length_zero_iff_nil. lia. }
        rewrite Hnil in Hin. by apply elem_of_nil in Hin. }
      assert (e ∈ l) by (rewrite <- Hsplit; apply elem_of_app; by right).
      unfold has_key in Hne. pose proof (Hbelow e ltac:(done)). lia. }
    (* the rest of the loop *)
    destruct (IH (calls ++ gets1)
                (out ++ [mkLine i k0 (Z.of_nat (length (value <$> take_key k0 l)))])
                fuel rfuel)
      as (gets & lines & Hrun & Hgets & Hempty & Hbytes & Hlines & Hord & Hcount).
    { rewrite Hl1. unfold l1. rewrite length_drop. lia. }
    { lia. }
    { lia. }
    { lia. }
    rewrite Hs1, Hrun. rewrite Hl1 in Hlines, Hcount.
    exists (gets1 ++ gets),
      (mkLine i k0 (Z.of_nat (length (value <$> take_key k0 l))) :: lines).
    rewrite !app_assoc, <- (app_assoc out). simpl.
    split; [done|]. split.
    { apply Forall_app. split; [|done]. unfold gets1. by apply Forall_replicate. }
    split; [done|]. split; [by rewrite Hbytes|].
    rewrite length_fmap. fold m.
    split; [|split].
    + constructor.
      * simpl. split; [done|]. split; [lia|]. exists kv. split.
        -- rewrite Hl. by left.
        -- unfold k0. by rewrite strcmp_strdup_l, strcmp_refl.
      * eapply Forall_impl; [exact Hlines|]. simpl.
        intros ln (Hf & Hc & e & He & Hw). split; [done|]. split; [done|].
        exists e. split; [|done]. rewrite <- Hsplit. apply elem_of_app. by right.
    + constructor; [done|].
      destruct lines as [|ln lines']; constructor.
      apply Forall_cons in Hlines as [(_ & _ & e & He & Hw) _].
      unfold word_lt. simpl. pose proof (Habove e He) as Hgt.
      rewrite (strcmp_eq_r _ _ k0 Hw), strcmp_antisym. lia.
    + intros k. simpl. rewrite Hcount.
      replace (filter (has_key k) l)
        with (filter (has_key k) (take_key k0 l ++ l1)) by (by rewrite Hsplit).
      rewrite filter_app, length_app.
      destruct (Z.eqb_spec (strcmp k0 k) 0) as [E|E].
      * assert (Hnone : filter (has_key k) l1 = []).
        { apply filter_has_key_nil, Forall_forall. intros e He Hk.
          unfold has_key in Hk. pose proof (Habove e He).
          rewrite (strcmp_eq_r _ _ (key e) E) in *. lia. }
        assert (Hall : filter (has_key k) (take_key k0 l) = take_key k0 l).
        { rewrite <- (filter_take_key k0 l) at 2.
          apply list_filter_iff. intros e. unfold has_key.
          by rewrite (strcmp_eq_r _ _ (key e) E). }
        rewrite Hnone, Hall. fold m. simpl. lia.
      * assert (Hnone : filter (has_key k) (take_key k0 l) = []).
        { apply filter_has_key_nil, Forall_forall. intros e He Hk.
          rewrite Htake in He. apply list_elem_of_filter in He as [He0 _].
          unfold has_key in *. apply E.
          by rewrite <- (strcmp_eq_l _ _ k He0). }
        rewrite Hnone. simpl. lia.
Qed.

(** X16.  Emit, then get: on a store of [1 <= P <= UINT_MAX] partitions
    in which no pair of the key's partition has a smaller key, [MR_Emit(k,
    v)] followed by [MR_GetNext(k, MR_Partitioner(k, P))] returns the copy
    of [v] and leaves the list of the partition as it was before the
    emit. *)
Theorem X16_emit_then_get_next P calls k v :
  1 <= P <= UINT_MAX →
  none_below k (live_pairs (do_calls calls (MR_Run_init P)) (MR_Partitioner k P)) →
  fst (MR_GetNext (Some k) (MR_Partitioner k P)
         (MR_Emit (Some k) (Some v) (do_calls calls (MR_Run_init P))))
  = Some (strdup v)
  ∧ live_pairs
      (snd (MR_GetNext (Some k) (MR_Partitioner k P)
              (MR_Emit (Some k) (Some v) (do_calls calls (MR_Run_init P)))))
      (MR_Partitioner k P)
    = live_pairs (do_calls calls (MR_Run_init P)) (MR_Partitioner k P).
Proof.
  intros HP Hbelow.
  pose proof (MR_Partitioner_range char_signed k P HP) as Hp.
  set (i := MR_Partitioner k P) in *.
  assert (Hlt : (Z.to_nat i < Z.to_nat P)%nat) by lia.
  pose proof (lookup_run_Some char_signed P calls _ Hlt) as Hlookup.
  unfold live_pairs in Hbelow |- *. rewrite Hlookup in Hbelow |- *.
  set (l := head (partition_after P (Z.to_nat i) calls)) in *.
  set (s1 := MR_Emit (Some k) (Some v) (do_calls calls (MR_Run_init P))).
  assert (Hnum : num_partitions s1 = P).
  { unfold s1. by rewrite num_partitions_MR_Emit, num_partitions_do_calls. }
  assert (Hs1 : partitions s1 !! Z.to_nat i
                = Some (emit_partition k v (partition_after P (Z.to_nat i) calls))).
  { unfold s1. rewrite lookup_MR_Emit, Hlookup, num_partitions_do_calls.
    unfold call_on_partition. simpl. case_decide as Hd; [done|].
    exfalso. apply Hd. split; [lia|done]. }
  assert (Hhead : head (emit_partition k v (partition_after P (Z.to_nat i) calls))
                  = mkKVPair (strdup k) (strdup v) :: l).
  { unfold emit_partition. cbn [head]. apply insert_sorted_at_head.
    unfold none_below in Hbelow. rewrite Forall_forall in Hbelow.
    intros kv Hkv. simpl. rewrite strcmp_strdup_r. by apply Hbelow. }
  unfold MR_GetNext. rewrite Hnum.
  destruct (Z.leb_spec P i); [lia|]. rewrite Hs1, Hhead. cbn [key value].
  rewrite strcmp_strdup_l, strcmp_refl. cbn [negb Z.eqb fst snd partitions].
  split; [done|].
  by rewrite list_lookup_insert_eq by (by eapply lookup_lt_Some).
Qed.

(** [MR_GetNext] calls for one partition leave the others alone. *)
Lemma partition_after_other P j i calls gets :
  j ≠ Z.to_nat i →
  Forall (is_GetNext_at i) gets →
  partition_after P j (calls ++ gets) = partition_after P j calls.
Proof.
  intros Hj. induction gets as [|c gets IH] using rev_ind; intros Hgets.
  { by rewrite app_nil_r. }
  apply Forall_app in Hgets as [Hgets Hc]. apply Forall_cons in Hc as [Hc _].
  rewrite app_assoc, partition_after_snoc, IH by done.
  destruct c as [|[k|] i']; simpl in Hc; try done. subst i'.
  unfold MapReduce.call_on_partition. case_decide as Hd; [|done].
  by destruct Hd as [_ ?].
Qed.

Lemma is_Emit_leaves_key k calls :
  Forall is_Emit calls → Forall (leaves_key k) calls.
Proof.
  intros H. eapply Forall_impl; [exact H|]. by intros [|].
Qed.

(** X4.  The reduce job of the word count: on any store that [MR_Emit]
    and [MR_GetNext] calls have built and for any partition index below
    [P], when the index and the number of pairs in the partition are at
    most [INT_MAX] (so that the [int] counter of [Reduce] does not
    overflow), [MR_Reduce] with the [Reduce] of the driver returns.  It leaves
    the list of the partition empty and the other partitions as they were,
    and it appends lines to the result file of the partition only: one
    line per key, the keys in strictly ascending byte order, each with a
    positive count, the count of a key being the number of pairs the
    partition held for it. *)
Theorem X4_reduce_job_counts_words P calls i out :
  0 <= i < P → i <= INT_MAX →
  Z.of_nat (length (live_pairs (do_calls calls (MR_Run_init P)) i)) <= INT_MAX →
  ∃ fuel s' lines,
    MR_Reduce fuel (Reduce fuel) i (do_calls calls (MR_Run_init P), out)
    = Some (s', out ++ lines)
    ∧ live_pairs s' i = []
    ∧ (∀ j, j ≠ Z.to_nat i →
         partitions s' !! j = partitions (do_calls calls (MR_Run_init P)) !! j)
    ∧ Forall (λ ln, file ln = i ∧ 0 < count ln) lines
    ∧ Sorted word_lt lines
    ∧ ∀ k, lines_count k lines
           = Z.of_nat (length (filter (has_key k)
                                 (live_pairs (do_calls calls (MR_Run_init P)) i))).
Proof.
  intros Hi Hint Hpairs.
  assert (Hlt : (Z.to_nat i < Z.to_nat P)%nat) by lia.
  unfold live_pairs in Hpairs. rewrite lookup_run_Some in Hpairs by done.
  set (n := length (head (partition_after P (Z.to_nat i) calls))) in *.
  destruct (MR_Reduce_Reduce_aux P i n Hi Hint calls out (S n) (S n))
    as (gets & lines & Hrun & Hgets & Hempty & _ & Hlines & Hord & Hcount);
    [done|done|lia|lia|].
  exists (S n), (do_calls (calls ++ gets) (MR_Run_init P)), lines.
  split; [done|]. split; [|split; [|split; [|split; [done|]]]].
  - unfold live_pairs. by rewrite lookup_run_Some, Hempty.
  - intros j Hj. rewrite !lookup_do_calls. simpl.
    destruct (replicate (Z.to_nat P) (mkPartition [] 0) !! j) as [part0|] eqn:H0;
      [|done].
    apply lookup_replicate in H0 as [-> _]. simpl. f_equal.
    exact (partition_after_other P j i calls gets Hj Hgets).
  - eapply Forall_impl; [exact Hlines|]. by intros ln (? & ? & _).
  - intros k. unfold live_pairs. by rewrite lookup_run_Some, Hcount.
Qed.

(** X5.  The word count from end to end, for one word, with at most
    [INT_MAX + 1] partitions and at most [INT_MAX] emits (so that the
    [int] counter of [Reduce] does not overflow): after the emits of
    the map phase, in whatever order they arrived, the reduce job of the
    partition [MR_Partitioner(k, P)] writes for [k] the number of
    [MR_Emit] calls made with the key [k], and the reduce job of any other
    partition writes nothing for [k]. *)
Theorem X5_word_count_end_to_end P calls k out :
  1 <= P <= INT_MAX + 1 →
  Z.of_nat (length calls) <= INT_MAX →
  Forall is_Emit calls →
  (∃ fuel s' lines,
     MR_Reduce fuel (Reduce fuel) (MR_Partitioner k P)
       (do_calls calls (MR_Run_init P), out)
     = Some (s', out ++ lines)
     ∧ lines_count k lines = Z.of_nat (length (emitted_values P k calls)))
  ∧ ∀ i, 0 <= i < P → i ≠ MR_Partitioner k P →
      ∃ fuel s' lines,
        MR_Reduce fuel (Reduce fuel) i (do_calls calls (MR_Run_init P), out)
        = Some (s', out ++ lines)
        ∧ lines_count k lines = 0.
Proof.
  intros HP Hlen Hemits.
  assert (HP' : 1 <= P <= UINT_MAX) by (unfold INT_MAX, UINT_MAX in *; lia).
  pose proof (MR_Partitioner_range char_signed k P HP') as Hp. split.
  - set (i := MR_Partitioner k P) in *.
    pose proof (partition_after_length P (Z.to_nat i) calls) as Hn.
    set (n := length (head (partition_after P (Z.to_nat i) calls))) in *.
    destruct (MR_Reduce_Reduce_aux P i n ltac:(lia) ltac:(lia) calls out (S n) (S n))
      as (gets & lines & Hrun & _ & _ & _ & _ & _ & Hcount); [done|lia|lia|lia|].
    eexists _, _, lines. split; [exact Hrun|]. rewrite Hcount. f_equal.
    rewrite (partition_after_has_key char_signed)
      by (by apply is_Emit_leaves_key).
    unfold i. by rewrite <- (emitted_pairs_values char_signed), length_fmap.
  - intros i Hi Hne.
    pose proof (partition_after_length P (Z.to_nat i) calls) as Hn.
    set (n := length (head (partition_after P (Z.to_nat i) calls))) in *.
    destruct (MR_Reduce_Reduce_aux P i n Hi ltac:(lia) calls out (S n) (S n))
      as (gets & lines & Hrun & _ & _ & _ & _ & _ & Hcount); [done|lia|lia|lia|].
    eexists _, _, lines. split; [exact Hrun|]. rewrite Hcount.
    rewrite filter_has_key_nil; [done|].
    pose proof (partition_after_keys char_signed P (Z.to_nat i) calls) as Hkeys.
    eapply Forall_impl; [exact Hkeys|]. simpl. intros kv Hkv Hk.
    apply Hne. rewrite <- (MR_Partitioner_strcmp char_signed _ _ P Hk). lia.
Qed.

(** X6.  [MR_Reduce] relies on the reducer to take pairs from the head of
    the list: with a reducer that returns and leaves the list of the
    partition as it is, on a list that is not empty, the loop does not end,
    whatever the number of iterations allowed. *)
Theorem X6_reduce_job_needs_draining_reducer {W : Type} (reduce_fn : Reducer W) i w :
  live_pairs (fst w) i ≠ [] →
  (∀ k w0 w1, reduce_fn k i w0 = Some w1 →
              live_pairs (fst w1) i = live_pairs (fst w0) i) →
  ∀ fuel, MR_Reduce fuel reduce_fn i w = None.
Proof.
  intros Hlive Hidle fuel. revert w Hlive.
  induction fuel as [|fuel IH]; intros w Hlive; cbn [MR_Reduce]; [done|].
  unfold live_pairs in Hlive.
  destruct (partitions (fst w) !! Z.to_nat i) as [partition|] eqn:Hp; [|done].
  destruct (head partition) as [|kv next] eqn:Hhead; [done|].
  destruct (reduce_fn (strdup (key kv)) i w) as [w1|] eqn:Hcall; [|done].
  apply IH. rewrite (Hidle _ _ _ Hcall). unfold live_pairs. by rewrite Hp, Hhead.
Qed.

End StoreMore.

(** *** The driver and the comparisons of [MR_Run] *)

Section Driver.

(** What one [strsep] call returns: a token without delimiter and NUL,
    and the string is the token, then the delimiter found, then the rest. *)
Lemma strsep_spec delim s token rest :
  strsep delim s = (token, rest) →
  Forall (λ c, in_delim delim c = false ∧ uchar c ≠ 0) token
  ∧ match rest with
    | None => strdup s = token
    | Some s' => ∃ d, in_delim delim d = true ∧ strdup s = token ++ d :: strdup s'
    end.
Proof.
  revert token rest. induction s as [|c s IH]; intros token rest; simpl.
  { intros [= <- <-]. by split. }
  destruct (Z.eqb_spec (uchar c) 0) as [E|E].
  { intros [= <- <-]. by split. }
  destruct (in_delim delim c) eqn:Hd.
  { intros [= <- <-]. split; [done|]. by exists c. }
  destruct (strsep delim s) as [t r] eqn:Hs. intros [= <- <-].
  destruct (IH t r eq_refl) as [Ht Hr]. split; [by constructor|].
  destruct r as [s'|]; [|by rewrite Hr].
  destruct Hr as (d & Hdd & ->). by exists d.
Qed.

Lemma Map_tokens_step fuel s :
  Map_tokens (S fuel) (Some s)
  = let (token, dummy') := strsep Map_delim s in
    match Map_tokens fuel dummy' with
    | None => None
    | Some tokens => Some (token :: tokens)
    end.
Proof. done. Qed.

(** The tokens of a line, with the fuel the loop needs. *)
Lemma Map_tokens_spec s :
  ∀ fuel, (length s < fuel)%nat →
    ∃ token rest tokens,
      strsep Map_delim s = (token, rest)
      ∧ Map_tokens fuel rest = Some tokens
      ∧ length (token :: tokens)
        = S (length (filter (λ c, in_delim Map_delim c = true) (strdup s)))
      ∧ Forall (Forall (λ c, in_delim Map_delim c = false ∧ uchar c ≠ 0))
          (token :: tokens)
      ∧ concat (token :: tokens)
        = filter (λ c, in_delim Map_delim c = false) (strdup s).
Proof.
  induction s as [|c s IH]; intros fuel Hfuel.
  { destruct fuel as [|fuel]; [simpl in Hfuel; lia|].
    exists [], None, []. repeat split; by repeat constructor. }
  cbn [strsep strdup].
  destruct (Z.eqb_spec (uchar c) 0) as [E|E].
  { destruct fuel as [|fuel]; [simpl in Hfuel; lia|].
    exists [], None, []. repeat split; by repeat constructor. }
  destruct (in_delim Map_delim c) eqn:Hd.
  - destruct fuel as [|fuel]; [simpl in Hfuel; lia|].
    destruct (IH fuel) as (t & r & ts & Hsep & Hrun & Hlen & Hall & Hcat);
      [simpl in Hfuel; lia|].
    exists [], (Some s), (t :: ts). split; [done|].
    split; [cbn [Map_tokens]; by rewrite Hsep, Hrun|].
    rewrite filter_cons_True by done. rewrite filter_cons_False by congruence.
    split; [simpl in *; lia|]. split; [by constructor|]. done.
  - destruct (IH fuel) as (t & r & ts & Hsep & Hrun & Hlen & Hall & Hcat);
      [simpl in Hfuel; lia|].
    rewrite Hsep. exists (c :: t), r, ts. split; [done|]. split; [done|].
    rewrite filter_cons_False by congruence. rewrite filter_cons_True by done.
    split; [done|]. apply Forall_cons in Hall as [Ht Hts].
    split; [by repeat constructor|].
    simpl in *. by rewrite Hcat.
Qed.

(** X7.  The inner loop of [Map] ends on every line, and it emits one
    token more than the line has delimiter characters (space, tab, line
    feed, carriage return): two delimiters in a row, and the line feed at
    the end of a line, each give an empty word.  No token holds a
    delimiter or a NUL, and the tokens, put together, are the characters
    of the line that are not delimiters. *)
Theorem X7_map_tokens line :
  ∃ fuel tokens,
    Map_tokens fuel (Some line) = Some tokens
    ∧ length tokens
      = S (length (filter (λ c, in_delim Map_delim c = true) (strdup line)))
    ∧ Forall (Forall (λ c, in_delim Map_delim c = false ∧ uchar c ≠ 0)) tokens
    ∧ concat tokens = filter (λ c, in_delim Map_delim c = false) (strdup line).
Proof.
  destruct (Map_tokens_spec line (S (length line)) ltac:(lia))
    as (t & r & ts & Hsep & Hrun & Hlen & Hall & Hcat).
  exists (S (S (length line))), (t :: ts). split; [|done].
  by rewrite Map_tokens_step, Hsep, Hrun.
Qed.

(** X8.  [compare_file_size] and [compare_part_bytes] are comparisons as
    [qsort] needs them: swapping the arguments negates the result, the
    result is 0 exactly for equal sizes, and "not greater" is
    transitive. *)
Theorem X8_comparisons_consistent (fa fb fc : FileInfo) (pa pb pc : PartInfo) :
  (compare_file_size fb fa = - compare_file_size fa fb
   ∧ (compare_file_size fa fb = 0 ↔ size fa = size fb)
   ∧ (compare_file_size fa fb <= 0 → compare_file_size fb fc <= 0 →
      compare_file_size fa fc <= 0))
  ∧ (compare_part_bytes pb pa = - compare_part_bytes pa pb
     ∧ (compare_part_bytes pa pb = 0 ↔ info_bytes pa = info_bytes pb)
     ∧ (compare_part_bytes pa pb <= 0 → compare_part_bytes pb pc <= 0 →
        compare_part_bytes pa pc <= 0)).
Proof.
  unfold compare_file_size, compare_part_bytes.
  repeat match goal with
         | |- context [?a >? ?b] => destruct (Z.gtb_spec a b)
         | |- context [?a <? ?b] => destruct (Z.ltb_spec a b)
         end; repeat split; intros; lia.
Qed.

End Driver.

(** *** The statements above at concrete runs, on x86-64 (signed [char])

    With ten partitions, as in the word-count driver, the words ["sat"]
    and ["ate"] both hash to partition 9. *)

Lemma C3_partition_keys_sorted_witness :
  partitions (do_calls true [emit "sat" "1"; emit "ate" "1"] (MR_Run_init 10)) !! 9%nat
  = Some (mkPartition [kv_pair "ate" "1"; kv_pair "sat" "1"] 12)
  /\ [kv_pair "ate" "1"; kv_pair "sat" "1"] !! 0%nat = Some (kv_pair "ate" "1")
  /\ [kv_pair "ate" "1"; kv_pair "sat" "1"] !! 1%nat = Some (kv_pair "sat" "1")
  /\ strcmp (bytes_of "ate") (bytes_of "sat") <= 0.
Proof.
  assert (H1 : partitions (do_calls true [emit "sat" "1"; emit "ate" "1"]
                             (MR_Run_init 10)) !! 9%nat
               = Some (mkPartition [kv_pair "ate" "1"; kv_pair "sat" "1"] 12))
    by reflexivity.
  split; [exact H1|]. split; [reflexivity|]. split; [reflexivity|].
  exact (C3_partition_keys_sorted true 10 [emit "sat" "1"; emit "ate" "1"] 9%nat
           (mkPartition [kv_pair "ate" "1"; kv_pair "sat" "1"] 12) 0%nat
           (kv_pair "ate" "1") (kv_pair "sat" "1") H1 eq_refl eq_refl).
Defined.

Lemma C8_pairs_in_their_partition_witness :
  partitions (do_calls true [emit "hello" "1"] (MR_Run_init 10)) !! 1%nat
  = Some (mkPartition [kv_pair "hello" "1"] 8)
  /\ kv_pair "hello" "1" ∈ [kv_pair "hello" "1"]
  /\ MR_Partitioner true (bytes_of "hello") 10 = 1.
Proof.
  assert (H1 : partitions (do_calls true [emit "hello" "1"] (MR_Run_init 10)) !! 1%nat
               = Some (mkPartition [kv_pair "hello" "1"] 8)) by reflexivity.
  assert (H2 : kv_pair "hello" "1" ∈ [kv_pair "hello" "1"]) by constructor.
  split; [exact H1|]. split; [exact H2|].
  exact (C8_pairs_in_their_partition true 10 [emit "hello" "1"] 1%nat
           (mkPartition [kv_pair "hello" "1"] 8) (kv_pair "hello" "1") H1 H2).
Defined.

(** C4, as stated, fails: after [MR_Emit("sat", "1")] and
    [MR_GetNext("sat", 9)] the list of partition 9 is empty, and its byte
    counter is still 6. *)
Lemma C4_counterexample :
  partitions (do_calls true [emit "sat" "1"; get_next "sat" 9] (MR_Run_init 10)) !! 9%nat
  = Some (mkPartition [] 6)
  /\ bytes (mkPartition [] 6) ≠ sum_pair_bytes (head (mkPartition [] 6)).
Proof. split; [reflexivity|discriminate]. Qed.

Lemma C4_byte_counter_witness :
  partitions (do_calls true [emit "sat" "1"; get_next "sat" 9] (MR_Run_init 10)) !! 9%nat
  = Some (mkPartition [] 6)
  /\ bytes (mkPartition [] 6)
     = to_ulong (sum_pair_bytes
                   (emitted_pairs true 10 9 [emit "sat" "1"; get_next "sat" 9]))
  /\ (Forall is_Emit [emit "sat" "1"; get_next "sat" 9] →
      bytes (mkPartition [] 6) = to_ulong (sum_pair_bytes (head (mkPartition [] 6)))).
Proof.
  assert (H1 : partitions (do_calls true [emit "sat" "1"; get_next "sat" 9]
                             (MR_Run_init 10)) !! 9%nat
               = Some (mkPartition [] 6)) by reflexivity.
  split; [exact H1|].
  exact (C4_byte_counter true 10 [emit "sat" "1"; get_next "sat" 9] 9%nat
           (mkPartition [] 6) H1).
Defined.

Lemma C6_invalid_arguments_ignored_witness :
  (@None (list byte) = None ∨ Some (bytes_of "1") = None
   ∨ num_partitions (MR_Run_init 10) = 0)
  /\ (Some (bytes_of "sat") = None ∨ num_partitions (MR_Run_init 10) <= 10)
  /\ MR_Emit true None (Some (bytes_of "1")) (MR_Run_init 10) = MR_Run_init 10
  /\ MR_GetNext (Some (bytes_of "sat")) 10 (MR_Run_init 10) = (None, MR_Run_init 10).
Proof.
  assert (H1 : @None (list byte) = None ∨ Some (bytes_of "1") = None
               ∨ num_partitions (MR_Run_init 10) = 0) by (left; reflexivity).
  assert (H2 : Some (bytes_of "sat") = None ∨ num_partitions (MR_Run_init 10) <= 10)
    by (right; simpl; lia).
  split; [exact H1|]. split; [exact H2|].
  exact (C6_invalid_arguments_ignored true None (Some (bytes_of "1"))
           (Some (bytes_of "sat")) 10 (MR_Run_init 10) H1 H2).
Defined.

(** C1, as stated, fails: after [MR_Emit("sat", "1")] and
    [MR_Emit("ate", "1")] both pairs are in partition 9, with ["ate"] at
    the head, so the first [MR_GetNext("sat", 9)] returns NULL: no value is
    obtained for ["sat"], which was emitted once. *)
Lemma C1_counterexample :
  MR_Partitioner true (bytes_of "sat") 10 = 9
  /\ MR_GetNext (Some (bytes_of "sat")) 9
       (do_calls true [emit "sat" "1"; emit "ate" "1"] (MR_Run_init 10))
     = (None, do_calls true [emit "sat" "1"; emit "ate" "1"] (MR_Run_init 10))
  /\ Reduce_loop 3 (bytes_of "sat") 9
       (do_calls true [emit "sat" "1"; emit "ate" "1"] (MR_Run_init 10))
     = Some ([], do_calls true [emit "sat" "1"; emit "ate" "1"] (MR_Run_init 10))
  /\ emitted_values 10 (bytes_of "sat") [emit "sat" "1"; emit "ate" "1"]
     = [bytes_of "1"].
Proof. repeat split. Qed.

Lemma C1_drain_returns_emitted_values_witness :
  1 <= 10 <= UINT_MAX
  /\ Forall (leaves_key (bytes_of "sat")) sat_ate_calls
  /\ none_below (bytes_of "sat")
       (live_pairs (do_calls true sat_ate_calls (MR_Run_init 10))
          (MR_Partitioner true (bytes_of "sat") 10))
  /\ ∃ fuel values s',
       Reduce_loop fuel (bytes_of "sat") (MR_Partitioner true (bytes_of "sat") 10)
         (do_calls true sat_ate_calls (MR_Run_init 10)) = Some (values, s')
       ∧ MR_GetNext (Some (bytes_of "sat")) (MR_Partitioner true (bytes_of "sat") 10) s'
         = (None, s')
       ∧ values ≡ₚ emitted_values 10 (bytes_of "sat") sat_ate_calls
       ∧ length values = length (emitted_values 10 (bytes_of "sat") sat_ate_calls).
Proof.
  assert (H1 : 1 <= 10 <= UINT_MAX) by (unfold UINT_MAX; lia).
  assert (H2 : Forall (leaves_key (bytes_of "sat")) sat_ate_calls).
  { repeat (constructor; [by vm_compute|]). constructor. }
  assert (H3 : none_below (bytes_of "sat")
                 (live_pairs (do_calls true sat_ate_calls (MR_Run_init 10))
                    (MR_Partitioner true (bytes_of "sat") 10))).
  { unfold none_below.
    replace (live_pairs (do_calls true sat_ate_calls (MR_Run_init 10))
               (MR_Partitioner true (bytes_of "sat") 10))
      with [kv_pair "sat" "3"; kv_pair "sat" "1"] by (vm_compute; reflexivity).
    repeat (constructor; [by vm_compute|]). constructor. }
  split; [exact H1|]. split; [exact H2|]. split; [exact H3|].
  exact (C1_drain_returns_emitted_values true 10 sat_ate_calls (bytes_of "sat")
           H1 H2 H3).
Defined.

(** C10, as stated, fails when a pair with a smaller key is in the
    partition: ["ate"] and ["sat"] both go to partition 9 of 10, and after
    ["sat"] is emitted for ["1"] and then for ["2"], [MR_GetNext] for
    ["sat"] finds ["ate"] at the head and returns NULL; the values come
    back in no order at all. *)
Lemma C10_counterexample :
  MR_Partitioner true (bytes_of "sat") 10 = 9
  /\ MR_GetNext (Some (bytes_of "sat")) 9
       (do_calls true [emit "ate" "0"; emit "sat" "1"; emit "sat" "2"]
          (MR_Run_init 10))
     = (None,
        do_calls true [emit "ate" "0"; emit "sat" "1"; emit "sat" "2"]
          (MR_Run_init 10))
  /\ Reduce_loop 4 (bytes_of "sat") 9
       (do_calls true [emit "ate" "0"; emit "sat" "1"; emit "sat" "2"]
          (MR_Run_init 10))
     = Some ([],
             do_calls true [emit "ate" "0"; emit "sat" "1"; emit "sat" "2"]
               (MR_Run_init 10))
  /\ reverse (emitted_values 10 (bytes_of "sat")
                [emit "ate" "0"; emit "sat" "1"; emit "sat" "2"])
     = [bytes_of "2"; bytes_of "1"].
Proof. repeat split. Qed.

(** ["sat"] is emitted for ["1"], ["2"] and ["3"] into a store that holds
    ["ate"] and an older ["sat"]; ["ate"] is taken out before ["sat"] is
    asked for. *)
Lemma C10_equal_keys_lifo_witness :
  1 <= 10 <= UINT_MAX
  /\ Forall (leaves_key (bytes_of "sat")) [emit "ate" "0"; emit "sat" "9"]
  /\ Forall (leaves_key (bytes_of "sat")) [get_next "ate" 9]
  /\ none_below (bytes_of "sat")
       (live_pairs
          (do_calls true
             ([emit "ate" "0"; emit "sat" "9"]
              ++ ((λ v, Emit (Some (bytes_of "sat")) (Some v))
                    <$> [bytes_of "1"; bytes_of "2"; bytes_of "3"])
              ++ [get_next "ate" 9])
             (MR_Run_init 10))
          (MR_Partitioner true (bytes_of "sat") 10))
  /\ ∃ fuel s',
       Reduce_loop fuel (bytes_of "sat") (MR_Partitioner true (bytes_of "sat") 10)
         (do_calls true
            ([emit "ate" "0"; emit "sat" "9"]
             ++ ((λ v, Emit (Some (bytes_of "sat")) (Some v))
                   <$> [bytes_of "1"; bytes_of "2"; bytes_of "3"])
             ++ [get_next "ate" 9])
            (MR_Run_init 10))
       = Some (reverse (emitted_values 10 (bytes_of "sat") [get_next "ate" 9])
               ++ reverse (strdup <$> [bytes_of "1"; bytes_of "2"; bytes_of "3"])
               ++ reverse (emitted_values 10 (bytes_of "sat")
                             [emit "ate" "0"; emit "sat" "9"]), s')
       ∧ MR_GetNext (Some (bytes_of "sat")) (MR_Partitioner true (bytes_of "sat") 10) s'
         = (None, s').
Proof.
  assert (H1 : 1 <= 10 <= UINT_MAX) by (unfold UINT_MAX; lia).
  assert (H2 : Forall (leaves_key (bytes_of "sat")) [emit "ate" "0"; emit "sat" "9"]).
  { repeat (constructor; [by vm_compute|]). constructor. }
  assert (H3 : Forall (leaves_key (bytes_of "sat")) [get_next "ate" 9]).
  { repeat (constructor; [by vm_compute|]). constructor. }
  assert (H4 : none_below (bytes_of "sat")
                 (live_pairs
                    (do_calls true
                       ([emit "ate" "0"; emit "sat" "9"]
                        ++ ((λ v, Emit (Some (bytes_of "sat")) (Some v))
                              <$> [bytes_of "1"; bytes_of "2"; bytes_of "3"])
                        ++ [get_next "ate" 9])
                       (MR_Run_init 10))
                    (MR_Partitioner true (bytes_of "sat") 10))).
  { unfold none_below.
    replace (live_pairs _ _)
      with [kv_pair "sat" "3"; kv_pair "sat" "2"; kv_pair "sat" "1";
            kv_pair "sat" "9"] by (vm_compute; reflexivity).
    repeat (constructor; [by vm_compute|]). constructor. }
  split; [exact H1|]. split; [exact H2|]. split; [exact H3|]. split; [exact H4|].
  exact (proj2 (C10_equal_keys_lifo true 10 [emit "ate" "0"; emit "sat" "9"]
                  [bytes_of "1"; bytes_of "2"; bytes_of "3"] [get_next "ate" 9]
                  (bytes_of "sat") H1 H2 H3 H4)).
Defined.

Lemma X1_emit_stores_one_pair_witness :
  1 <= 10 <= UINT_MAX
  /\ ∃ partition partition',
       partitions (do_calls true [emit "ate" "1"] (MR_Run_init 10))
         !! Z.to_nat (MR_Partitioner true (bytes_of "sat") 10) = Some partition
       ∧ partitions (MR_Emit true (Some (bytes_of "sat")) (Some (bytes_of "1"))
                       (do_calls true [emit "ate" "1"] (MR_Run_init 10)))
           !! Z.to_nat (MR_Partitioner true (bytes_of "sat") 10) = Some partition'
       ∧ head partition'
         ≡ₚ mkKVPair (strdup (bytes_of "sat")) (strdup (bytes_of "1")) :: head partition
       ∧ ∀ j, j ≠ Z.to_nat (MR_Partitioner true (bytes_of "sat") 10) →
           partitions (MR_Emit true (Some (bytes_of "sat")) (Some (bytes_of "1"))
                         (do_calls true [emit "ate" "1"] (MR_Run_init 10))) !! j
           = partitions (do_calls true [emit "ate" "1"] (MR_Run_init 10)) !! j.
Proof.
  assert (H1 : 1 <= 10 <= UINT_MAX) by (unfold UINT_MAX; lia).
  split; [exact H1|].
  exact (X1_emit_stores_one_pair true 10 [emit "ate" "1"] (bytes_of "sat")
           (bytes_of "1") H1).
Defined.

(** A key and the same key with bytes behind its terminator. *)
Lemma X2_partitioner_in_range_and_by_key_witness :
  1 <= 10 <= UINT_MAX
  /\ strcmp (bytes_of "sat") (bytes_of "sat" ++ [x00; x21]) = 0
  /\ 0 <= MR_Partitioner true (bytes_of "sat") 10 < 10
  /\ MR_Partitioner true (bytes_of "sat") 10
     = MR_Partitioner true (bytes_of "sat" ++ [x00; x21]) 10.
Proof.
  assert (H1 : 1 <= 10 <= UINT_MAX) by (unfold UINT_MAX; lia).
  assert (H2 : strcmp (bytes_of "sat") (bytes_of "sat" ++ [x00; x21]) = 0)
    by reflexivity.
  split; [exact H1|]. split; [exact H2|].
  exact (X2_partitioner_in_range_and_by_key true 10 (bytes_of "sat")
           (bytes_of "sat" ++ [x00; x21]) H1 H2).
Defined.

Lemma X3_emit_order_irrelevant_witness :
  Forall is_Emit [emit "sat" "1"; emit "ate" "2"]
  /\ [emit "sat" "1"; emit "ate" "2"] ≡ₚ [emit "ate" "2"; emit "sat" "1"]
  /\ partitions (do_calls true [emit "sat" "1"; emit "ate" "2"] (MR_Run_init 10)) !! 9%nat
     = Some (mkPartition [kv_pair "ate" "2"; kv_pair "sat" "1"] 12)
  /\ partitions (do_calls true [emit "ate" "2"; emit "sat" "1"] (MR_Run_init 10)) !! 9%nat
     = Some (mkPartition [kv_pair "ate" "2"; kv_pair "sat" "1"] 12)
  /\ key <$> [kv_pair "ate" "2"; kv_pair "sat" "1"]
     = key <$> [kv_pair "ate" "2"; kv_pair "sat" "1"]
  /\ [kv_pair "ate" "2"; kv_pair "sat" "1"] ≡ₚ [kv_pair "ate" "2"; kv_pair "sat" "1"]
  /\ 12 = 12.
Proof.
  assert (H1 : Forall is_Emit [emit "sat" "1"; emit "ate" "2"])
    by (repeat constructor).
  assert (H2 : [emit "sat" "1"; emit "ate" "2"] ≡ₚ [emit "ate" "2"; emit "sat" "1"])
    by apply perm_swap.
  assert (H3 : partitions (do_calls true [emit "sat" "1"; emit "ate" "2"]
                             (MR_Run_init 10)) !! 9%nat
               = Some (mkPartition [kv_pair "ate" "2"; kv_pair "sat" "1"] 12))
    by reflexivity.
  assert (H4 : partitions (do_calls true [emit "ate" "2"; emit "sat" "1"]
                             (MR_Run_init 10)) !! 9%nat
               = Some (mkPartition [kv_pair "ate" "2"; kv_pair "sat" "1"] 12))
    by reflexivity.
  split; [exact H1|]. split; [exact H2|]. split; [exact H3|]. split; [exact H4|].
  exact (X3_emit_order_irrelevant true 10 _ _ 9%nat _ _ H1 H2 H3 H4).
Defined.

Lemma X4_reduce_job_counts_words_witness :
  0 <= 9 < 10
  /\ 9 <= INT_MAX
  /\ Z.of_nat (length (live_pairs (do_calls true sat_ate_calls (MR_Run_init 10)) 9))
     <= INT_MAX
  /\ ∃ fuel s' lines,
       MR_Reduce fuel (Reduce fuel) 9
         (do_calls true sat_ate_calls (MR_Run_init 10), [])
       = Some (s', [] ++ lines)
       ∧ live_pairs s' 9 = []
       ∧ (∀ j, j ≠ Z.to_nat 9 →
            partitions s' !! j
            = partitions (do_calls true sat_ate_calls (MR_Run_init 10)) !! j)
       ∧ Forall (λ ln, file ln = 9 ∧ 0 < count ln) lines
       ∧ Sorted word_lt lines
       ∧ ∀ k, lines_count k lines
              = Z.of_nat
                  (length (filter (has_key k)
                             (live_pairs (do_calls true sat_ate_calls (MR_Run_init 10))
                                9))).
Proof.
  assert (H1 : 0 <= 9 < 10) by lia.
  assert (H2 : 9 <= INT_MAX) by (unfold INT_MAX; lia).
  assert (H3 : Z.of_nat (length (live_pairs
                                   (do_calls true sat_ate_calls (MR_Run_init 10)) 9))
               <= INT_MAX) by (by vm_compute).
  split; [exact H1|]. split; [exact H2|]. split; [exact H3|].
  exact (X4_reduce_job_counts_words true 10 sat_ate_calls 9 [] H1 H2 H3).
Defined.

Lemma X5_word_count_end_to_end_witness :
  1 <= 10 <= INT_MAX + 1
  /\ Z.of_nat (length [emit "sat" "1"; emit "ate" "1"; emit "sat" "1"]) <= INT_MAX
  /\ Forall is_Emit [emit "sat" "1"; emit "ate" "1"; emit "sat" "1"]
  /\ ∃ fuel s' lines,
       MR_Reduce fuel (Reduce fuel) (MR_Partitioner true (bytes_of "sat") 10)
         (do_calls true [emit "sat" "1"; emit "ate" "1"; emit "sat" "1"]
            (MR_Run_init 10), [])
       = Some (s', [] ++ lines)
       ∧ lines_count (bytes_of "sat") lines
         = Z.of_nat
             (length (emitted_values 10 (bytes_of "sat")
                        [emit "sat" "1"; emit "ate" "1"; emit "sat" "1"])).
Proof.
  assert (H1 : 1 <= 10 <= INT_MAX + 1) by (unfold INT_MAX; lia).
  assert (H0 : Z.of_nat (length [emit "sat" "1"; emit "ate" "1"; emit "sat" "1"])
               <= INT_MAX) by (by vm_compute).
  assert (H2 : Forall is_Emit [emit "sat" "1"; emit "ate" "1"; emit "sat" "1"])
    by (repeat constructor).
  split; [exact H1|]. split; [exact H0|]. split; [exact H2|].
  exact (proj1 (X5_word_count_end_to_end true 10
                  [emit "sat" "1"; emit "ate" "1"; emit "sat" "1"]
                  (bytes_of "sat") [] H1 H0 H2)).
Defined.

Lemma X16_emit_then_get_next_witness :
  1 <= 10 <= UINT_MAX
  /\ none_below (bytes_of "ate")
       (live_pairs (do_calls true [emit "sat" "0"] (MR_Run_init 10))
          (MR_Partitioner true (bytes_of "ate") 10))
  /\ fst (MR_GetNext (Some (bytes_of "ate")) (MR_Partitioner true (bytes_of "ate") 10)
            (MR_Emit true (Some (bytes_of "ate")) (Some (bytes_of "1"))
               (do_calls true [emit "sat" "0"] (MR_Run_init 10))))
     = Some (strdup (bytes_of "1"))
  /\ live_pairs
       (snd (MR_GetNext (Some (bytes_of "ate"))
               (MR_Partitioner true (bytes_of "ate") 10)
               (MR_Emit true (Some (bytes_of "ate")) (Some (bytes_of "1"))
                  (do_calls true [emit "sat" "0"] (MR_Run_init 10)))))
       (MR_Partitioner true (bytes_of "ate") 10)
     = live_pairs (do_calls true [emit "sat" "0"] (MR_Run_init 10))
         (MR_Partitioner true (bytes_of "ate") 10).
Proof.
  assert (H1 : 1 <= 10 <= UINT_MAX) by (unfold UINT_MAX; lia).
  assert (H2 : none_below (bytes_of "ate")
                 (live_pairs (do_calls true [emit "sat" "0"] (MR_Run_init 10))
                    (MR_Partitioner true (bytes_of "ate") 10))).
  { unfold none_below.
    replace (live_pairs (do_calls true [emit "sat" "0"] (MR_Run_init 10))
               (MR_Partitioner true (bytes_of "ate") 10))
      with [kv_pair "sat" "0"] by (vm_compute; reflexivity).
    repeat (constructor; [by vm_compute|]). constructor. }
  split; [exact H1|]. split; [exact H2|].
  exact (X16_emit_then_get_next true 10 [emit "sat" "0"] (bytes_of "ate")
           (bytes_of "1") H1 H2).
Defined.

(** A reducer that returns at once, on a partition that holds a pair. *)
Lemma X6_reduce_job_needs_draining_reducer_witness :
  live_pairs (fst (do_calls true [emit "sat" "1"] (MR_Run_init 10), @nil line)) 9 ≠ []
  /\ (∀ (k : list byte) (w0 w1 : State * list line),
        Some w0 = Some w1 → live_pairs (fst w1) 9 = live_pairs (fst w0) 9)
  /\ ∀ fuel,
       MR_Reduce fuel (λ _ _ w, Some w) 9
         (do_calls true [emit "sat" "1"] (MR_Run_init 10), @nil line)
       = None.
Proof.
  assert (H1 : live_pairs (fst (do_calls true [emit "sat" "1"] (MR_Run_init 10),
                                @nil line)) 9 ≠ []) by (by vm_compute).
  assert (H2 : ∀ (k : list byte) (w0 w1 : State * list line),
             Some w0 = Some w1 → live_pairs (fst w1) 9 = live_pairs (fst w0) 9)
    by (by intros k w0 w1 [= ->]).
  split; [exact H1|]. split; [exact H2|].
  exact (X6_reduce_job_needs_draining_reducer (λ _ _ w, Some w) 9
           (do_calls true [emit "sat" "1"] (MR_Run_init 10), []) H1 H2).
Defined.

End MapReduceProps.

(** ** The job queue and the worker pool *)

Module ThreadPoolProps.

Import ThreadPool.

Section JobQueue.

#[local] Instance job_le_trans : Transitive job_le.
Proof. intros a b c. unfold job_le. lia. Qed.

(** The head test of [add_job_to_queue] is the loop test, one node
    early. *)
Lemma add_job_to_queue_head q job :
  head (add_job_to_queue q job) = add_job_to_queue_loop (head q) job.
Proof.
  unfold add_job_to_queue. simpl. destruct (head q) as [|h next]; simpl; [done|].
  destruct (Z.geb_spec (job_size h) (job_size job));
    destruct (Z.ltb_spec (job_size h) (job_size job)); done || lia.
Qed.

(** Where the new job goes: after the leading jobs of a strictly smaller
    size, and before everything else. *)
Lemma add_job_to_queue_loop_split l job :
  ∃ l1 l2,
    l = l1 ++ l2
    ∧ add_job_to_queue_loop l job = l1 ++ job :: l2
    ∧ Forall (λ j, job_size j < job_size job) l1.
Proof.
  induction l as [|h next IH]; simpl.
  - by exists [], [].
  - destruct (Z.ltb_spec (job_size h) (job_size job)) as [Hlt|Hge].
    + destruct IH as (l1 & l2 & -> & -> & Hl1).
      exists (h :: l1), l2. split; [done|]. split; [done|]. by constructor.
    + by exists [], (h :: next).
Qed.

Lemma add_job_to_queue_loop_HdRel a l job :
  HdRel job_le a l → job_le a job →
  HdRel job_le a (add_job_to_queue_loop l job).
Proof.
  intros Hhd Ha. destruct l as [|n l]; simpl; [by constructor|].
  destruct (job_size n <? job_size job); constructor; [|done].
  by inversion Hhd.
Qed.

Lemma add_job_to_queue_loop_Sorted l job :
  Sorted job_le l → Sorted job_le (add_job_to_queue_loop l job).
Proof.
  induction 1 as [|h next Hs IH Hhd]; simpl; [by repeat constructor|].
  destruct (Z.ltb_spec (job_size h) (job_size job)) as [Hlt|Hge].
  - constructor; [done|]. apply add_job_to_queue_loop_HdRel; [done|].
    unfold job_le. lia.
  - constructor; [by constructor|]. by constructor.
Qed.

Lemma head_ThreadPool_get_job tp :
  head (jobs (snd (ThreadPool_get_job tp))) = tail (head (jobs tp)).
Proof.
  unfold ThreadPool_get_job. by destruct (head (jobs tp)) as [|job next] eqn:E.
Qed.

Lemma do_queue_ops_Sorted ops tp :
  Sorted job_le (head (jobs tp)) →
  Sorted job_le (head (jobs (do_queue_ops ops tp))).
Proof.
  revert tp. induction ops as [|op ops IH]; intros tp Hs; [done|].
  apply IH. destruct op as [job|]; cbn [do_queue_op jobs].
  - rewrite add_job_to_queue_head. by apply add_job_to_queue_loop_Sorted.
  - rewrite head_ThreadPool_get_job.
    destruct (head (jobs tp)) as [|h next]; [done|].
    by apply Sorted_inv in Hs as [? _].
Qed.

(** The head of a sorted queue has the smallest size. *)
Lemma min_job_size_Sorted first rest :
  Sorted job_le (first :: rest) → min_job_size first rest = job_size first.
Proof.
  intros Hs. apply Sorted_StronglySorted in Hs; [|exact job_le_trans].
  revert first Hs. induction rest as [|j rest IH]; intros first Hs; simpl; [done|].
  apply StronglySorted_inv in Hs as [Hs Hall].
  rewrite (IH j Hs). apply Forall_cons in Hall as [Hj _].
  unfold job_le in Hj. lia.
Qed.

(** C5.  Under every sequence of [add_job_to_queue] and
    [ThreadPool_get_job] operations on the queue of a new pool, the queue
    is sorted ascending by [job_size]; and when the queue is not empty,
    the next [ThreadPool_get_job] returns a job whose [job_size] is the
    minimum over the queue. *)
Theorem C5_queue_sorted_shortest_first num tp0 ops :
  ThreadPool_create num = Some tp0 →
  Sorted job_le (head (jobs (do_queue_ops ops tp0)))
  ∧ ∀ first rest,
      head (jobs (do_queue_ops ops tp0)) = first :: rest →
      ∃ job tp',
        ThreadPool_get_job (do_queue_ops ops tp0) = (Some job, tp')
        ∧ job_size job = min_job_size first rest.
Proof.
  intros Hcreate.
  assert (Hs : Sorted job_le (head (jobs (do_queue_ops ops tp0)))).
  { apply do_queue_ops_Sorted. unfold ThreadPool_create in Hcreate.
    destruct (num =? 0); [done|]. injection Hcreate as <-. constructor. }
  split; [done|]. intros first rest Hq.
  unfold ThreadPool_get_job. rewrite Hq. eexists _, _. split; [done|].
  rewrite Hq in Hs. by rewrite min_job_size_Sorted.
Qed.

(** C7.  With the stop flag set, [ThreadPool_add_job] returns false and
    leaves the pool, and with it the queue, as it was: the caller's
    argument is stored nowhere.  Otherwise it returns true, and the
    queue holds the jobs it held, in their order, and one new job with
    the given [func], [arg] and [job_size]. *)
Theorem C7_add_job_rejects_when_stopped tp func arg job_size :
  (stop tp = true →
   ThreadPool_add_job tp func arg job_size = (false, tp))
  ∧ (stop tp = false →
     ∃ l1 l2,
       head (jobs tp) = l1 ++ l2
       ∧ ThreadPool_add_job tp func arg job_size
         = (true,
            mkPool (num_threads tp) (active_workers tp)
              (mkQueue (l1 ++ mkJob func arg job_size :: l2) (size (jobs tp) + 1))
              false)).
Proof.
  unfold ThreadPool_add_job. split; intros ->; [done|].
  destruct (add_job_to_queue_loop_split (head (jobs tp)) (mkJob func arg job_size))
    as (l1 & l2 & Hl & Hadd & _).
  exists l1, l2. split; [done|].
  rewrite <- Hadd, <- add_job_to_queue_head. done.
Qed.

End JobQueue.

Section Pool.

Lemma flat_map_insert {A B} (f : A → list B) (l : list A) i x y :
  l !! i = Some x →
  flat_map f l = flat_map f (take i l) ++ f x ++ flat_map f (drop (S i) l)
  ∧ flat_map f (<[i:=y]> l)
    = flat_map f (take i l) ++ f y ++ flat_map f (drop (S i) l).
Proof.
  intros Hi. split.
  - rewrite <- (take_drop_middle l i x Hi) at 1. by rewrite flat_map_app.
  - rewrite insert_take_drop by (by eapply lookup_lt_Some).
    by rewrite flat_map_app.
Qed.

Lemma flat_map_insert_same {A B} (f : A → list B) (l : list A) i x y :
  l !! i = Some x → f y = f x → flat_map f (<[i:=y]> l) = flat_map f l.
Proof.
  intros Hi Hf. destruct (flat_map_insert f l i x y Hi) as [-> ->]. by rewrite Hf.
Qed.

Lemma flat_map_replicate_nil {A B} (f : A → list B) n x :
  f x = [] → flat_map f (replicate n x) = [].
Proof. intros Hf. induction n as [|n IH]; simpl; [done|]. by rewrite Hf, IH. Qed.

Lemma pool_inv_create num tp :
  ThreadPool_create num = Some tp → pool_inv (System_create tp).
Proof.
  unfold ThreadPool_create. destruct (num =? 0); [done|]. intros [= <-].
  unfold pool_inv, System_create. cbn [pool threads accepted completed].
  by rewrite !flat_map_replicate_nil.
Qed.

(** Every step of a thread keeps the bookkeeping of the pool right. *)
Lemma pool_inv_step s s' : pool_inv s → sys_step s s' → pool_inv s'.
Proof.
  intros (Hsize & Hact & Hperm) Hstep.
  destruct Hstep as [s func arg job_size ok tp' Hadd
                    |s i r tp' Hi Hacq
                    |s i job Hi
                    |s i job Hi
                    |s]; unfold pool_inv; cbn [pool threads accepted completed].
  - (* ThreadPool_add_job *)
    unfold ThreadPool_add_job in Hadd.
    destruct (stop (pool s)); injection Hadd as <- <-; [done|].
    cbn [jobs active_workers]. rewrite add_job_to_queue_head.
    destruct (add_job_to_queue_loop_split (head (jobs (pool s)))
                (mkJob func arg job_size)) as (l1 & l2 & Hl & -> & _).
    rewrite Hl in Hsize, Hperm. cbn [size add_job_to_queue].
    split; [|split; [done|]].
    + rewrite Hsize, !length_app. simpl. lia.
    + rewrite Hperm. solve_Permutation.
  - (* first critical section of Thread_run *)
    unfold Thread_run_acquire in Hacq.
    assert (Hidle : ∀ w, running w = [] → busy w = [] →
              pool_inv (mkSystem (pool s) (<[i:=w]> (threads s))
                          (accepted s) (completed s))).
    { intros w Hr Hb. unfold pool_inv. cbn [pool threads accepted completed].
      by rewrite (flat_map_insert_same running _ _ _ _ Hi),
                 (flat_map_insert_same busy _ _ _ _ Hi). }
    destruct ((size (jobs (pool s)) =? 0) && negb (stop (pool s)));
      [injection Hacq as <- <-; by apply Hidle|].
    destruct (stop (pool s) && (size (jobs (pool s)) =? 0));
      [injection Hacq as <- <-; by apply Hidle|].
    unfold ThreadPool_get_job in Hacq.
    destruct (head (jobs (pool s))) as [|job next] eqn:Hhead;
      injection Hacq as <- <-; [by apply Hidle|].
    cbn [jobs active_workers size head after_acquire].
    destruct (flat_map_insert running _ _ _ (InJob job) Hi) as [Hr ->].
    destruct (flat_map_insert busy _ _ _ (InJob job) Hi) as [Hb ->].
    rewrite Hr in Hperm. rewrite Hb in Hact. simpl in *.
    split; [lia|]. split.
    + rewrite Hact, !length_app. simpl. lia.
    + rewrite Hperm. solve_Permutation.
  - (* the job's function returns *)
    destruct (flat_map_insert running _ _ _ (AfterJob job) Hi) as [Hr ->].
    rewrite (flat_map_insert_same busy _ _ _ _ Hi) by done.
    rewrite Hr in Hperm. simpl in *.
    split; [done|]. split; [done|]. rewrite Hperm. solve_Permutation.
  - (* second critical section of Thread_run *)
    destruct (flat_map_insert busy _ _ _ AtLoopTop Hi) as [Hb ->].
    rewrite (flat_map_insert_same running _ _ _ _ Hi) by done.
    rewrite Hb in Hact. cbn [Thread_run_release snd jobs active_workers]. simpl in *.
    split; [done|]. split; [|done].
    rewrite Hact, !length_app. simpl. lia.
  - (* ThreadPool_destroy *)
    done.
Qed.

Lemma reachable_pool_inv num s : reachable num s → pool_inv s.
Proof.
  induction 1 as [tp Hcreate|s s' _ IH Hstep].
  - by eapply pool_inv_create.
  - by eapply pool_inv_step.
Qed.

Lemma running_busy ths : (length (flat_map running ths) ≤ length (flat_map busy ths))%nat.
Proof.
  induction ths as [|w ths IH]; simpl; [done|].
  rewrite !length_app. destruct w; simpl; lia.
Qed.

(** C9.  In every state the pool can reach after [ThreadPool_create],
    when [ThreadPool_check] finds its wait condition false with the lock
    held, and so returns, the job queue is empty, [active_workers] is 0,
    and the function of every job that [ThreadPool_add_job] accepted has
    returned. *)
Theorem C9_check_returns_when_idle num s :
  reachable num s →
  ThreadPool_check_waits (pool s) = false →
  head (jobs (pool s)) = []
  ∧ active_workers (pool s) = 0
  ∧ completed s ≡ₚ accepted s.
Proof.
  intros (Hsize & Hact & Hperm)%reachable_pool_inv Hcheck.
  unfold ThreadPool_check_waits in Hcheck.
  apply orb_false_iff in Hcheck as [Hq Ha].
  destruct (Z.gtb_spec (size (jobs (pool s))) 0); [done|].
  destruct (Z.gtb_spec (active_workers (pool s)) 0); [done|].
  assert (Hhead : head (jobs (pool s)) = []).
  { apply length_zero_iff_nil. lia. }
  assert (Hrun : flat_map running (threads s) = []).
  { apply length_zero_iff_nil. pose proof (running_busy (threads s)). lia. }
  split; [done|]. split; [lia|].
  by rewrite Hperm, Hhead, Hrun.
Qed.

End Pool.

(** *** More on the queue and the pool *)

Section QueueMore.

Lemma do_queue_ops_cons op ops tp :
  do_queue_ops (op :: ops) tp = do_queue_ops ops (do_queue_op tp op).
Proof. done. Qed.

Lemma do_queue_ops_enqueue js tp :
  head (jobs (do_queue_ops (Enqueue <$> js) tp)) ≡ₚ js ++ head (jobs tp)
  ∧ size (jobs (do_queue_ops (Enqueue <$> js) tp))
    = size (jobs tp) + Z.of_nat (length js).
Proof.
  revert tp. induction js as [|job js IH]; intros tp.
  { simpl. split; [done|lia]. }
  rewrite fmap_cons, do_queue_ops_cons.
  destruct (IH (do_queue_op tp (Enqueue job))) as [-> ->].
  cbn [do_queue_op jobs]. rewrite add_job_to_queue_head.
  destruct (add_job_to_queue_loop_split (head (jobs tp)) job)
    as (l1 & l2 & -> & -> & _).
  cbn [add_job_to_queue size length]. split; [solve_Permutation|lia].
Qed.

(** Dequeuing as often as the queue is long returns the queue, head
    first, and leaves it empty. *)
Lemma get_jobs_all tp :
  size (jobs tp) = Z.of_nat (length (head (jobs tp))) →
  fst (get_jobs (length (head (jobs tp))) tp) = head (jobs tp)
  ∧ head (jobs (snd (get_jobs (length (head (jobs tp))) tp))) = []
  ∧ size (jobs (snd (get_jobs (length (head (jobs tp))) tp))) = 0.
Proof.
  remember (length (head (jobs tp))) as n eqn:Hn. revert tp Hn.
  induction n as [|n IH]; intros tp Hn Hsize; simpl.
  { symmetry in Hn. apply length_zero_iff_nil in Hn. rewrite Hn. split; [done|].
    split; [done|lia]. }
  unfold ThreadPool_get_job.
  destruct (head (jobs tp)) as [|job next] eqn:Hq; [done|].
  set (tp' := mkPool _ _ _ _).
  destruct (IH tp') as (Hout & Hempty & Hzero).
  { simpl in *. lia. }
  { simpl in *. lia. }
  destruct (get_jobs n tp') as [rest tp'']. simpl in *. by rewrite Hout.
Qed.

(** X9.  The queue sorts: when jobs are submitted to a new pool and then
    taken out one by one, with no submission in between, they come out
    in ascending order of [job_size], each submitted job exactly once, and
    the queue is left empty with its counter at 0. *)
Theorem X9_queue_sorts_jobs num tp0 js :
  ThreadPool_create num = Some tp0 →
  Sorted job_le (fst (get_jobs (length js) (do_queue_ops (Enqueue <$> js) tp0)))
  ∧ fst (get_jobs (length js) (do_queue_ops (Enqueue <$> js) tp0)) ≡ₚ js
  ∧ head (jobs
            (snd (get_jobs (length js) (do_queue_ops (Enqueue <$> js) tp0)))) = []
  ∧ size (jobs
            (snd (get_jobs (length js) (do_queue_ops (Enqueue <$> js) tp0)))) = 0.
Proof.
  intros Hcreate. unfold ThreadPool_create in Hcreate.
  destruct (num =? 0); [done|]. injection Hcreate as <-.
  set (tp := do_queue_ops (Enqueue <$> js) _).
  destruct (do_queue_ops_enqueue js (mkPool num 0 (mkQueue [] 0) false))
    as [Hperm Hsize]. fold tp in Hperm, Hsize. simpl in Hperm, Hsize.
  rewrite app_nil_r in Hperm.
  assert (Hlen : length js = length (head (jobs tp)))
    by (by rewrite Hperm).
  rewrite Hlen. destruct (get_jobs_all tp) as (-> & -> & ->); [lia|].
  split; [|done].
  apply do_queue_ops_Sorted. constructor.
Qed.

(** Jobs of one size stack up at the head of the queue. *)
Lemma do_queue_ops_same_size z js tp :
  Forall (λ j, job_size j = z) js →
  Forall (λ j, z <= job_size j) (head (jobs tp)) →
  head (jobs (do_queue_ops (Enqueue <$> js) tp))
  = reverse js ++ head (jobs tp).
Proof.
  intros Hjobs. revert tp. induction Hjobs as [|job js Hjob _ IH]; intros tp Htp.
  { done. }
  rewrite fmap_cons, do_queue_ops_cons.
  assert (Hhead : head (jobs (do_queue_op tp (Enqueue job)))
                  = job :: head (jobs tp)).
  { cbn [do_queue_op jobs]. rewrite add_job_to_queue_head.
    destruct (head (jobs tp)) as [|h next]; [done|]. simpl.
    apply Forall_cons in Htp as [Hh _].
    destruct (Z.ltb_spec (job_size h) (job_size job)); [lia|done]. }
  rewrite IH.
  - by rewrite Hhead, reverse_cons, <- app_assoc.
  - rewrite Hhead. constructor; [lia|done].
Qed.

(** X10.  Among jobs of equal size the queue is last in, first out:
    when jobs of one size are submitted to a new pool and then taken out,
    they come out in the reverse of the order of submission. *)
Theorem X10_equal_sizes_lifo num tp0 z js :
  ThreadPool_create num = Some tp0 →
  Forall (λ j, job_size j = z) js →
  fst (get_jobs (length js) (do_queue_ops (Enqueue <$> js) tp0)) = reverse js.
Proof.
  intros Hcreate Hjobs. unfold ThreadPool_create in Hcreate.
  destruct (num =? 0); [done|]. injection Hcreate as <-.
  set (tp := do_queue_ops (Enqueue <$> js) _).
  pose proof (do_queue_ops_same_size z js (mkPool num 0 (mkQueue [] 0) false)
                Hjobs ltac:(constructor)) as Hhead.
  destruct (do_queue_ops_enqueue js (mkPool num 0 (mkQueue [] 0) false))
    as [_ Hsize].
  fold tp in Hhead, Hsize. simpl in Hhead, Hsize. rewrite app_nil_r in Hhead.
  assert (Hlen : length js = length (head (jobs tp)))
    by (by rewrite Hhead, length_reverse).
  rewrite Hlen. destruct (get_jobs_all tp) as (-> & _); [lia|]. done.
Qed.

End QueueMore.

Section PoolMore.

Lemma shutdown_inv_step num s s' :
  pool_inv s → shutdown_inv num s → sys_step s s' → shutdown_inv num s'.
Proof.
  intros (Hsize & _ & _) (Hnum & Hlen & Hterm) Hstep.
  destruct Hstep as [s func arg job_size ok tp' Hadd
                    |s i r tp' Hi Hacq
                    |s i job Hi
                    |s i job Hi
                    |s]; unfold shutdown_inv; cbn [pool threads].
  - unfold ThreadPool_add_job in Hadd.
    destruct (stop (pool s)) eqn:Hstop; injection Hadd as <- <-;
      [split; [done|split; [done|by rewrite Hstop]]|].
    split; [done|]. split; [done|]. by intros [? _]%Hterm.
  - assert (Hkeep : ∀ w, w ≠ Terminated →
              Terminated ∈ <[i:=w]> (threads s) → Terminated ∈ threads s).
    { intros w Hw (j & Hj)%list_elem_of_lookup.
      destruct (decide (i = j)) as [->|Hne].
      - rewrite list_lookup_insert_eq in Hj by (by eapply lookup_lt_Some).
        congruence.
      - rewrite list_lookup_insert_ne in Hj by done.
        apply list_elem_of_lookup. by exists j. }
    unfold Thread_run_acquire in Hacq.
    destruct ((size (jobs (pool s)) =? 0) && negb (stop (pool s))) eqn:Hwait.
    { injection Hacq as <- <-. rewrite length_insert.
      split; [done|]. split; [done|]. intros Hin. by apply Hterm, (Hkeep AtLoopTop). }
    destruct (stop (pool s) && (size (jobs (pool s)) =? 0)) eqn:Hexit.
    { injection Hacq as <- <-. rewrite length_insert.
      split; [done|]. split; [done|]. intros _.
      apply andb_true_iff in Hexit as [Hstop Hzero%Z.eqb_eq].
      split; [done|]. apply length_zero_iff_nil. lia. }
    unfold ThreadPool_get_job in Hacq.
    destruct (head (jobs (pool s))) as [|job next] eqn:Hhead;
      injection Hacq as <- <-; rewrite length_insert.
    { split; [done|]. split; [done|]. intros Hin.
      destruct Hterm as [? _]; [by apply (Hkeep AtLoopTop)|]. by split. }
    split; [done|]. split; [done|]. intros Hin. exfalso.
    destruct Hterm as [_ Hnil]; [by apply (Hkeep (InJob job))|].
    by rewrite Hnil in Hhead.
  - rewrite length_insert. split; [done|]. split; [done|]. intros Hin.
    apply Hterm. apply list_elem_of_lookup in Hin as (j & Hj).
    destruct (decide (i = j)) as [->|Hne].
    + rewrite list_lookup_insert_eq in Hj by (by eapply lookup_lt_Some). done.
    + rewrite list_lookup_insert_ne in Hj by done.
      apply list_elem_of_lookup. by exists j.
  - rewrite length_insert. split; [done|]. split; [done|]. intros Hin.
    apply Hterm. apply list_elem_of_lookup in Hin as (j & Hj).
    destruct (decide (i = j)) as [->|Hne].
    + rewrite list_lookup_insert_eq in Hj by (by eapply lookup_lt_Some). done.
    + rewrite list_lookup_insert_ne in Hj by done.
      apply list_elem_of_lookup. by exists j.
  - split; [done|]. split; [done|]. by intros [_ ?]%Hterm.
Qed.

Lemma reachable_shutdown_inv num s : reachable num s → shutdown_inv num s.
Proof.
  induction 1 as [tp Hcreate|s s' Hreach IH Hstep].
  - unfold ThreadPool_create in Hcreate. destruct (num =? 0); [done|].
    injection Hcreate as <-. unfold shutdown_inv, System_create. simpl.
    rewrite length_replicate. split; [done|]. split; [done|].
    by intros [? _]%elem_of_replicate.
  - eapply shutdown_inv_step; [|done..]. by eapply reachable_pool_inv.
Qed.

Lemma busy_length ths : (length (flat_map busy ths) ≤ length ths)%nat.
Proof.
  induction ths as [|w ths IH]; simpl; [done|].
  rewrite length_app. destruct w; simpl; lia.
Qed.

(** X11.  In every state the pool can reach, the counter [jobs.size]
    is the number of jobs in the queue, so the tests of [Thread_run] on
    the counter agree with the list; and the worker never takes the branch
    in which [ThreadPool_get_job] returns NULL. *)
Theorem X11_size_counts_queue num s :
  reachable num s →
  size (jobs (pool s)) = Z.of_nat (length (head (jobs (pool s))))
  ∧ fst (Thread_run_acquire (pool s)) ≠ Retry.
Proof.
  intros (Hsize & _ & _)%reachable_pool_inv. split; [done|].
  unfold Thread_run_acquire, ThreadPool_get_job.
  destruct (Z.eqb_spec (size (jobs (pool s))) 0) as [E|E];
    destruct (stop (pool s)); simpl; try done;
    destruct (head (jobs (pool s))) as [|job next]; simpl in *; done || lia.
Qed.

(** X12.  In every state of a pool created with [num >= 1] threads,
    [active_workers] is between 0 and the number of threads, and it is the
    number of workers that have taken a job and not yet come back to the
    lock. *)
Theorem X12_active_workers_bounded num s :
  1 <= num →
  reachable num s →
  0 <= active_workers (pool s) <= num_threads (pool s)
  ∧ num_threads (pool s) = num
  ∧ active_workers (pool s) = Z.of_nat (length (flat_map busy (threads s))).
Proof.
  intros Hnum Hreach.
  destruct (reachable_pool_inv _ _ Hreach) as (_ & Hact & _).
  destruct (reachable_shutdown_inv _ _ Hreach) as (Hn & Hlen & _).
  pose proof (busy_length (threads s)). split; [|done]. lia.
Qed.

Lemma stop_step s s' :
  stop (pool s) = true → sys_step s s' →
  stop (pool s') = true ∧ accepted s' = accepted s.
Proof.
  intros Hstop Hstep.
  destruct Hstep as [s func arg job_size ok tp' Hadd
                    |s i r tp' Hi Hacq
                    |s i job Hi
                    |s i job Hi
                    |s]; cbn [pool accepted]; try done.
  - unfold ThreadPool_add_job in Hadd. rewrite Hstop in Hadd.
    by injection Hadd as <- <-.
  - unfold Thread_run_acquire, ThreadPool_get_job in Hacq. rewrite Hstop in Hacq.
    destruct (size (jobs (pool s)) =? 0); simpl in Hacq;
      [by injection Hacq as <- <-|].
    destruct (head (jobs (pool s))); by injection Hacq as <- <-.
Qed.

(** X13.  Once [ThreadPool_destroy] has set the stop flag, the flag stays
    set and [ThreadPool_add_job] accepts no job any more, whatever the
    threads do afterwards. *)
Theorem X13_no_job_accepted_after_stop s s' :
  stop (pool s) = true →
  rtc sys_step s s' →
  stop (pool s') = true ∧ accepted s' = accepted s.
Proof.
  intros Hstop Hsteps. induction Hsteps as [s|s s1 s' Hstep _ IH]; [done|].
  destruct (stop_step s s1 Hstop Hstep) as [Hstop1 Hacc1].
  destruct (IH Hstop1) as [? ?]. split; [done|]. congruence.
Qed.

(** X14.  No accepted job is lost at shutdown: in a pool created with
    [num >= 1] threads, when every worker has left [Thread_run] (so that
    the joins of [ThreadPool_destroy] return), the stop flag is set, the
    queue is empty, so that the loop of [ThreadPool_destroy] that frees
    the jobs left over has nothing to free, and the function of every
    accepted job has returned. *)
Theorem X14_no_job_lost_at_shutdown num s :
  1 <= num →
  reachable num s →
  Forall (λ w, w = Terminated) (threads s) →
  stop (pool s) = true
  ∧ head (jobs (pool s)) = []
  ∧ completed s ≡ₚ accepted s.
Proof.
  intros Hnum Hreach Hall.
  destruct (reachable_pool_inv _ _ Hreach) as (_ & _ & Hperm).
  destruct (reachable_shutdown_inv _ _ Hreach) as (_ & Hlen & Hterm).
  destruct Hterm as [Hstop Hnil].
  { destruct (threads s) as [|w ths]; [simpl in Hlen; lia|].
    apply Forall_cons in Hall as [-> _]. by left. }
  split; [done|]. split; [done|].
  assert (Hrun : flat_map running (threads s) = []).
  { clear -Hall. induction Hall as [|w ths -> _ IH]; [done|]. simpl. exact IH. }
  by rewrite Hperm, Hnil, Hrun.
Qed.

Lemma busy_worker ths :
  flat_map busy ths ≠ [] →
  ∃ i job, ths !! i = Some (InJob job) ∨ ths !! i = Some (AfterJob job).
Proof.
  induction ths as [|w ths IH]; simpl; [done|]. intros Hne.
  destruct w as [|job|job|]; simpl in Hne.
  - destruct (IH Hne) as (i & job & Hi). by exists (S i), job.
  - exists 0%nat, job. by left.
  - exists 0%nat, job. by right.
  - destruct (IH Hne) as (i & job & Hi). by exists (S i), job.
Qed.

(** X17.  A job runs at most once, and only if it was accepted: in every
    state the pool can reach, the jobs whose function has returned,
    together with those being run, are among the jobs [ThreadPool_add_job]
    accepted, each as often at most as it was accepted. *)
Theorem X17_jobs_run_at_most_once num s :
  reachable num s →
  flat_map running (threads s) ++ completed s ⊆+ accepted s.
Proof.
  intros (_ & _ & Hperm)%reachable_pool_inv. rewrite Hperm.
  apply submseteq_inserts_l. done.
Qed.

Lemma flat_map_lookup_nil {A B} (f : A → list B) (l : list A) (i : nat) x :
  l !! i = Some x → flat_map f l = [] → f x = [].
Proof.
  intros Hi Hnil. destruct (flat_map_insert f l i x x Hi) as [Heq _].
  rewrite Heq in Hnil. by apply app_eq_nil in Hnil as [_ [? _]%app_eq_nil].
Qed.

Lemma sum_list_with_insert {A} (f : A → nat) (l : list A) (i : nat) x y :
  l !! i = Some x →
  (sum_list_with f (<[i:=y]> l) + f x = sum_list_with f l + f y)%nat.
Proof.
  revert i. induction l as [|a l IH]; intros [|i] Hi; simpl in *; try done.
  - injection Hi as ->. lia.
  - specialize (IH i Hi). lia.
Qed.

(** What a worker finds in its first critical section, when [size] counts
    the queue. *)
Lemma Thread_run_acquire_cases tp :
  size (jobs tp) = Z.of_nat (length (head (jobs tp))) →
  (Thread_run_acquire tp = (Wait, tp) ∧ head (jobs tp) = [] ∧ stop tp = false)
  ∨ (Thread_run_acquire tp = (Exit, tp) ∧ head (jobs tp) = [] ∧ stop tp = true)
  ∨ (∃ job next,
       head (jobs tp) = job :: next
       ∧ Thread_run_acquire tp
         = (Run job,
            mkPool (num_threads tp) (active_workers tp + 1)
              (mkQueue next (size (jobs tp) - 1)) (stop tp))).
Proof.
  intros Hsize. unfold Thread_run_acquire, ThreadPool_get_job.
  destruct (head (jobs tp)) as [|job next] eqn:Hhead; simpl in Hsize.
  - rewrite Hsize. destruct (stop tp); simpl; [right; left|left]; done.
  - right. right. exists job, next. split; [done|].
    destruct (Z.eqb_spec (size (jobs tp)) 0); [lia|].
    simpl. by rewrite andb_false_r.
Qed.

Lemma erase_after_wait r : erase (after_wait r) = after_acquire r.
Proof. by destruct r. Qed.

Lemma erase_wake_insert (ths : list thread) (i : nat) :
  ths !! i = Some Blocked →
  erase <$> <[i := Awake AtLoopTop]> ths = erase <$> ths.
Proof.
  intros Hi. rewrite list_fmap_insert. apply list_insert_id.
  by rewrite list_lookup_fmap, Hi.
Qed.

Lemma cond_signal_erase ths ths' :
  cond_signal ths ths' → erase <$> ths' = erase <$> ths.
Proof. intros [ths0 _|ths0 i Hi]; [done|]. by apply erase_wake_insert. Qed.

Lemma cond_broadcast_erase ths : erase <$> cond_broadcast ths = erase <$> ths.
Proof.
  unfold cond_broadcast. rewrite <- list_fmap_compose.
  apply list_fmap_ext. by intros _ [w|] _.
Qed.

(** With the blocked workers forgotten, a worker step is a step of the
    pool. *)
Lemma worker_step_sys b b' : worker_step b b' → sys_step (sys b) (sys b').
Proof.
  intros [b0 i r tp' Hi Hacq|b0 i job Hi|b0 i job Hi]; unfold sys; simpl;
    rewrite list_fmap_insert; simpl.
  - rewrite erase_after_wait.
    apply (step_acquire (sys b0) i r tp'); [|done].
    simpl. by rewrite list_lookup_fmap, Hi.
  - apply (step_func_returns (sys b0) i job).
    simpl. by rewrite list_lookup_fmap, Hi.
  - apply (step_release (sys b0) i job).
    simpl. by rewrite list_lookup_fmap, Hi.
Qed.

(** So is every other step, apart from the wake-ups, which it does not
    see. *)
Lemma blocking_step_sys b b' :
  blocking_step b b' → sys_step (sys b) (sys b') ∨ sys b' = sys b.
Proof.
  intros [b0 b1 Hstep|b0 f a js tp' ths' Hadd Hsig|b0 f a js tp' Hadd|b0|b0 i Hi].
  - left. by apply worker_step_sys.
  - left. unfold sys at 2. simpl. rewrite (cond_signal_erase _ _ Hsig).
    exact (step_add_job (sys b0) f a js true tp' Hadd).
  - left. exact (step_add_job (sys b0) f a js false tp' Hadd).
  - left. unfold sys at 2. simpl. rewrite cond_broadcast_erase.
    exact (step_destroy (sys b0)).
  - right. unfold sys. simpl. by rewrite erase_wake_insert.
Qed.

Lemma blocking_reachable_sys num b :
  blocking_reachable num b → reachable num (sys b).
Proof.
  induction 1 as [tp Hcreate|b b' _ IH Hstep].
  - unfold sys, Blocking_create. simpl. rewrite fmap_replicate.
    by apply reachable_create.
  - destruct (blocking_step_sys _ _ Hstep) as [Hsys| ->]; [|done].
    by eapply reachable_step.
Qed.

(** While a job is queued a worker is awake: the signal of
    [ThreadPool_add_job] sees to it. *)
Lemma blocking_awake_inv num b :
  1 <= num → blocking_reachable num b → awake_inv b.
Proof.
  intros Hnum. induction 1 as [tp Hcreate|b b' Hreach IH Hstep].
  { unfold ThreadPool_create in Hcreate. destruct (num =? 0); [done|].
    injection Hcreate as <-. by intros ?. }
  pose proof (blocking_reachable_sys _ _ Hreach) as Hsys.
  destruct (reachable_pool_inv _ _ Hsys) as (Hsize & _ & _).
  destruct (reachable_shutdown_inv _ _ Hsys) as (_ & Hlen & Hterm).
  simpl in Hsize, Hlen, Hterm. rewrite length_fmap in Hlen.
  destruct Hstep as [b b' Hstep|b f a js tp' ths' Hadd Hsig|b f a js tp' Hadd|b|b i Hi];
    unfold awake_inv; simpl.
  - destruct Hstep as [b i r tp' Hi Hacq|b i job Hi|b i job Hi]; simpl.
    + destruct (Thread_run_acquire_cases (bpool b) Hsize)
        as [(Hr & Hnil & _)|[(Hr & Hnil & _)|(job & next & Hhead & Hr)]];
        rewrite Hr in Hacq; injection Hacq as <- <-; try done.
      intros _. exists i, (InJob job). split; [|done].
      simpl. apply list_lookup_insert_eq. by eapply lookup_lt_Some.
    + intros _. exists i, (AfterJob job). split; [|done].
      apply list_lookup_insert_eq. by eapply lookup_lt_Some.
    + intros _. exists i, AtLoopTop. split; [|done].
      apply list_lookup_insert_eq. by eapply lookup_lt_Some.
  - intros _. unfold ThreadPool_add_job in Hadd.
    destruct (stop (bpool b)) eqn:Hstop; [done|].
    destruct Hsig as [ths Hnone|ths i Hi].
    + destruct ths as [|t ths]; [simpl in Hlen; lia|].
      destruct t as [w|]; [|exfalso; apply Hnone; by left].
      exists 0%nat, w. split; [done|]. intros ->.
      destruct Hterm as [? _]; [by left|done].
    + exists i, AtLoopTop. split; [|done].
      apply list_lookup_insert_eq. by eapply lookup_lt_Some.
  - unfold ThreadPool_add_job in Hadd.
    destruct (stop (bpool b)); [|done]. injection Hadd as <-. exact IH.
  - intros Hq. destruct (IH Hq) as (i & w & Hi & Hw). exists i, w.
    split; [|done]. unfold cond_broadcast. by rewrite list_lookup_fmap, Hi.
  - intros Hq. destruct (IH Hq) as (i0 & w & Hi0 & Hw). exists i0, w.
    split; [|done]. rewrite list_lookup_insert_ne; [done|]. congruence.
Qed.

(** While the pool is not idle, a worker has a step to take. *)
Lemma worker_step_enabled num b :
  1 <= num →
  blocking_reachable num b →
  ThreadPool_check_waits (bpool b) = true →
  ∃ b', worker_step b b'.
Proof.
  intros Hnum Hreach Hwaits.
  pose proof (blocking_awake_inv _ _ Hnum Hreach) as Hawake.
  pose proof (blocking_reachable_sys _ _ Hreach) as Hsys.
  destruct (reachable_pool_inv _ _ Hsys) as (Hsize & Hact & _).
  simpl in Hsize, Hact.
  destruct (flat_map busy (erase <$> bthreads b)) as [|j js] eqn:Hbusy.
  - (* no worker holds a job: the queue is not empty, an awake worker takes
       its head *)
    simpl in Hact. unfold ThreadPool_check_waits in Hwaits.
    rewrite Hact in Hwaits. simpl in Hwaits. rewrite orb_false_r in Hwaits.
    apply Z.gtb_lt in Hwaits.
    destruct Hawake as (i & w & Hi & Hw).
    { intros Hnil. rewrite Hnil in Hsize. simpl in Hsize. lia. }
    assert (Hwi : (erase <$> bthreads b) !! i = Some w)
      by (by rewrite list_lookup_fmap, Hi).
    pose proof (flat_map_lookup_nil busy _ _ _ Hwi Hbusy) as Hidle.
    destruct w as [|job|job|]; [|done..].
    destruct (Thread_run_acquire (bpool b)) as [r tp'] eqn:Hacq.
    eexists. exact (wstep_acquire b i r tp' Hi Hacq).
  - (* a worker holds a job: its function returns, or it gives the job back *)
    destruct (busy_worker (erase <$> bthreads b)) as (i & job & Hi).
    { by rewrite Hbusy. }
    rewrite list_lookup_fmap in Hi.
    destruct (bthreads b !! i) as [[w|]|] eqn:Hi'; simpl in Hi;
      [|by destruct Hi..].
    destruct Hi as [[= ->]|[= ->]].
    + eexists. exact (wstep_func_returns b i job Hi').
    + eexists. exact (wstep_release b i job Hi').
Qed.

(** Every worker step brings the workers nearer to rest, and accepts no
    job. *)
Lemma worker_step_work_left num b b' :
  blocking_reachable num b →
  worker_step b b' →
  (work_left b' < work_left b)%nat ∧ baccepted b' = baccepted b.
Proof.
  intros Hreach Hstep.
  pose proof (blocking_reachable_sys _ _ Hreach) as Hsys.
  destruct (reachable_pool_inv _ _ Hsys) as (Hsize & _ & _). simpl in Hsize.
  destruct Hstep as [b i r tp' Hi Hacq|b i job Hi|b i job Hi];
    unfold work_left; simpl; (split; [|done]).
  - destruct (Thread_run_acquire_cases (bpool b) Hsize)
      as [(Hr & _ & _)|[(Hr & _ & _)|(job & next & Hhead & Hr)]];
      rewrite Hr in Hacq; injection Hacq as <- <-; simpl.
    + pose proof (sum_list_with_insert weight _ _ _ Blocked Hi). simpl in *. lia.
    + pose proof (sum_list_with_insert weight _ _ _ (Awake Terminated) Hi).
      simpl in *. lia.
    + pose proof (sum_list_with_insert weight _ _ _ (Awake (InJob job)) Hi).
      rewrite Hhead. simpl in *. lia.
  - pose proof (sum_list_with_insert weight _ _ _ (Awake (AfterJob job)) Hi).
    simpl in *. lia.
  - pose proof (sum_list_with_insert weight _ _ _ (Awake AtLoopTop) Hi).
    simpl in *. lia.
Qed.

(** The worker step after which the pool is idle is a second critical
    section of [Thread_run], and it broadcasts [all_idle]. *)
Lemma worker_step_all_idle num b b' :
  blocking_reachable num b →
  worker_step b b' →
  ThreadPool_check_waits (bpool b) = true →
  ThreadPool_check_waits (bpool b') = false →
  Thread_run_release (bpool b) = (true, bpool b').
Proof.
  intros Hreach Hstep Hwaits Hidle.
  pose proof (blocking_reachable_sys _ _ Hreach) as Hsys.
  destruct (reachable_pool_inv _ _ Hsys) as (Hsize & Hact & _).
  simpl in Hsize, Hact.
  destruct Hstep as [b i r tp' Hi Hacq|b i job Hi|b i job Hi]; simpl in *.
  - destruct (Thread_run_acquire_cases (bpool b) Hsize)
      as [(Hr & _ & _)|[(Hr & _ & _)|(job & next & Hhead & Hr)]];
      rewrite Hr in Hacq; injection Hacq as <- <-; [congruence..|].
    unfold ThreadPool_check_waits in Hidle. simpl in Hidle.
    apply orb_false_iff in Hidle as [_ Ha].
    destruct (Z.gtb_spec (active_workers (bpool b) + 1) 0); [done|lia].
  - congruence.
  - assert (Hbusy : flat_map busy (erase <$> bthreads b) ≠ []).
    { intros Hnil.
      assert (Hwi : (erase <$> bthreads b) !! i = Some (AfterJob job))
        by (by rewrite list_lookup_fmap, Hi).
      by pose proof (flat_map_lookup_nil busy _ _ _ Hwi Hnil). }
    assert (1 <= active_workers (bpool b)).
    { rewrite Hact. destruct (flat_map busy (erase <$> bthreads b)); [done|].
      simpl. lia. }
    unfold ThreadPool_check_waits, Thread_run_release in *. simpl in *.
    apply orb_false_iff in Hidle as [Hq Ha].
    destruct (Z.gtb_spec (size (jobs (bpool b))) 0); [done|].
    destruct (Z.gtb_spec (active_workers (bpool b) - 1) 0); [done|].
    f_equal. apply andb_true_intro. split; apply Z.eqb_eq; lia.
Qed.

(** Were the signal missing, a job could be queued with every worker
    blocked: from such a state no worker takes a step. *)
Lemma blocked_workers_stuck b b' :
  Forall (λ t, t = Blocked) (bthreads b) → ¬ worker_step b b'.
Proof.
  intros Hall Hstep. rewrite Forall_lookup in Hall.
  destruct Hstep as [b i r tp' Hi Hacq|b i job Hi|b i job Hi];
    by specialize (Hall _ _ Hi).
Qed.

(** X15.  The workers reach the barrier, whatever the schedule: in every
    state of a pool created with [num >= 1] threads, with the workers that
    are blocked in [pthread_cond_wait] on [has_job] taking no step until
    they are woken, and the functions of the jobs returning,
    - while [ThreadPool_check] would find its wait condition true, some
      worker has a step to take: no submission has left a job queued with
      every worker blocked, thanks to the [pthread_cond_signal] of
      [ThreadPool_add_job];
    - every step of a worker brings the workers nearer to rest, accepts no
      job and leads to a state of the pool again, so the workers take
      [work_left] steps at most until a job is submitted; and the step
      after which the wait condition of [ThreadPool_check] is false is a
      second critical section of [Thread_run] in which [all_idle] is
      broadcast;
    - hence the workers can take steps, without any job being submitted
      and without any wake-up, after which the wait condition of
      [ThreadPool_check] is false. *)
Theorem X15_barrier_reachable num b :
  1 <= num →
  blocking_reachable num b →
  (ThreadPool_check_waits (bpool b) = true → ∃ b', worker_step b b')
  ∧ (∀ b', worker_step b b' →
       (work_left b' < work_left b)%nat
       ∧ baccepted b' = baccepted b
       ∧ blocking_reachable num b'
       ∧ (ThreadPool_check_waits (bpool b) = true →
          ThreadPool_check_waits (bpool b') = false →
          Thread_run_release (bpool b) = (true, bpool b')))
  ∧ ∃ b',
      rtc worker_step b b'
      ∧ ThreadPool_check_waits (bpool b') = false
      ∧ baccepted b' = baccepted b.
Proof.
  intros Hnum Hreach. split; [by eapply worker_step_enabled|]. split.
  { intros b' Hstep.
    destruct (worker_step_work_left num b b' Hreach Hstep) as [Hlt Hacc].
    split; [done|]. split; [done|]. split.
    - eapply blocking_reachable_step; [exact Hreach|]. by apply bstep_worker.
    - by eapply worker_step_all_idle. }
  remember (work_left b) as n eqn:Hn. revert b Hn Hreach.
  induction n as [n IH] using lt_wf_ind. intros b Hn Hreach.
  destruct (ThreadPool_check_waits (bpool b)) eqn:Hwaits.
  - destruct (worker_step_enabled num b Hnum Hreach Hwaits) as (b1 & Hstep).
    destruct (worker_step_work_left num b b1 Hreach Hstep) as [Hlt Hacc].
    destruct (IH (work_left b1) ltac:(lia) b1 eq_refl) as (b' & Hsteps & Hidle & Hacc').
    { eapply blocking_reachable_step; [exact Hreach|]. by apply bstep_worker. }
    exists b'. split; [by eapply rtc_l|]. split; [done|]. congruence.
  - exists b. by split.
Qed.

End PoolMore.

(** *** The statements above at concrete runs *)

(** Jobs of sizes 100, 1 and 50 are queued in that order: the queue is
    sorted and the job of size 1 comes out first. *)
Lemma C5_queue_sorted_shortest_first_witness :
  ThreadPool_create 1 = Some (mkPool 1 0 (mkQueue [] 0) false)
  /\ Sorted job_le
       (head (jobs (do_queue_ops
                      [Enqueue (mkJob 0 0 100); Enqueue (mkJob 0 0 1);
                       Enqueue (mkJob 0 0 50)]
                      (mkPool 1 0 (mkQueue [] 0) false))))
  /\ ∀ first rest,
       head (jobs (do_queue_ops
                     [Enqueue (mkJob 0 0 100); Enqueue (mkJob 0 0 1);
                      Enqueue (mkJob 0 0 50)]
                     (mkPool 1 0 (mkQueue [] 0) false))) = first :: rest →
       ∃ job tp',
         ThreadPool_get_job
           (do_queue_ops
              [Enqueue (mkJob 0 0 100); Enqueue (mkJob 0 0 1); Enqueue (mkJob 0 0 50)]
              (mkPool 1 0 (mkQueue [] 0) false)) = (Some job, tp')
         ∧ job_size job = min_job_size first rest.
Proof.
  assert (H1 : ThreadPool_create 1 = Some (mkPool 1 0 (mkQueue [] 0) false))
    by reflexivity.
  split; [exact H1|].
  exact (C5_queue_sorted_shortest_first 1 (mkPool 1 0 (mkQueue [] 0) false)
           [Enqueue (mkJob 0 0 100); Enqueue (mkJob 0 0 1); Enqueue (mkJob 0 0 50)]
           H1).
Defined.

Lemma C7_add_job_rejects_when_stopped_witness :
  (stop (mkPool 1 0 (mkQueue [mkJob 0 0 7] 1) true) = true
   /\ ThreadPool_add_job (mkPool 1 0 (mkQueue [mkJob 0 0 7] 1) true) 1 2 3
      = (false, mkPool 1 0 (mkQueue [mkJob 0 0 7] 1) true))
  /\ (stop (mkPool 1 0 (mkQueue [mkJob 0 0 7] 1) false) = false
      /\ ∃ l1 l2,
           [mkJob 0 0 7] = l1 ++ l2
           ∧ ThreadPool_add_job (mkPool 1 0 (mkQueue [mkJob 0 0 7] 1) false) 1 2 3
             = (true, mkPool 1 0 (mkQueue (l1 ++ mkJob 1 2 3 :: l2) (1 + 1)) false)).
Proof.
  split; (split; [reflexivity|]).
  - exact (proj1 (C7_add_job_rejects_when_stopped
                    (mkPool 1 0 (mkQueue [mkJob 0 0 7] 1) true) 1 2 3) eq_refl).
  - exact (proj2 (C7_add_job_rejects_when_stopped
                    (mkPool 1 0 (mkQueue [mkJob 0 0 7] 1) false) 1 2 3) eq_refl).
Defined.

(** One worker, one job: the job is submitted, taken, run and given back,
    and then [ThreadPool_check] returns. *)
Lemma C9_check_returns_when_idle_witness :
  reachable 1
    (mkSystem (mkPool 1 0 (mkQueue [] 0) false) [AtLoopTop] [mkJob 1 2 3] [mkJob 1 2 3])
  /\ ThreadPool_check_waits (mkPool 1 0 (mkQueue [] 0) false) = false
  /\ head (jobs (mkPool 1 0 (mkQueue [] 0) false)) = []
  /\ active_workers (mkPool 1 0 (mkQueue [] 0) false) = 0
  /\ [mkJob 1 2 3] ≡ₚ [mkJob 1 2 3].
Proof.
  pose (job := mkJob 1 2 3).
  pose (s0 := System_create (mkPool 1 0 (mkQueue [] 0) false)).
  pose (s1 := mkSystem (mkPool 1 0 (mkQueue [job] 1) false) [AtLoopTop] [job] []).
  pose (s2 := mkSystem (mkPool 1 1 (mkQueue [] 0) false) [InJob job] [job] []).
  pose (s3 := mkSystem (mkPool 1 1 (mkQueue [] 0) false) [AfterJob job] [job] [job]).
  pose (s4 := mkSystem (mkPool 1 0 (mkQueue [] 0) false) [AtLoopTop] [job] [job]).
  assert (R0 : reachable 1 s0) by (apply reachable_create; reflexivity).
  assert (R1 : reachable 1 s1).
  { apply (reachable_step 1 s0 s1 R0).
    exact (step_add_job s0 1 2 3 true _ eq_refl). }
  assert (R2 : reachable 1 s2).
  { apply (reachable_step 1 s1 s2 R1).
    exact (step_acquire s1 0 (Run job) _ eq_refl eq_refl). }
  assert (R3 : reachable 1 s3).
  { apply (reachable_step 1 s2 s3 R2).
    exact (step_func_returns s2 0 job eq_refl). }
  assert (R4 : reachable 1 s4).
  { apply (reachable_step 1 s3 s4 R3).
    exact (step_release s3 0 job eq_refl). }
  split; [exact R4|]. split; [reflexivity|].
  exact (C9_check_returns_when_idle 1 s4 R4 eq_refl).
Defined.

Lemma X9_queue_sorts_jobs_witness :
  ThreadPool_create 1 = Some (mkPool 1 0 (mkQueue [] 0) false)
  /\ Sorted job_le [mkJob 0 0 1; mkJob 0 0 50; mkJob 0 0 100]
  /\ fst (get_jobs 3
            (do_queue_ops (Enqueue <$> [mkJob 0 0 100; mkJob 0 0 1; mkJob 0 0 50])
               (mkPool 1 0 (mkQueue [] 0) false)))
     = [mkJob 0 0 1; mkJob 0 0 50; mkJob 0 0 100].
Proof.
  assert (H1 : ThreadPool_create 1 = Some (mkPool 1 0 (mkQueue [] 0) false))
    by reflexivity.
  split; [exact H1|]. split; [|reflexivity].
  exact (proj1 (X9_queue_sorts_jobs 1 (mkPool 1 0 (mkQueue [] 0) false)
                  [mkJob 0 0 100; mkJob 0 0 1; mkJob 0 0 50] H1)).
Defined.

Lemma X10_equal_sizes_lifo_witness :
  ThreadPool_create 1 = Some (mkPool 1 0 (mkQueue [] 0) false)
  /\ Forall (λ j, job_size j = 7) [mkJob 1 0 7; mkJob 2 0 7; mkJob 3 0 7]
  /\ fst (get_jobs 3
            (do_queue_ops (Enqueue <$> [mkJob 1 0 7; mkJob 2 0 7; mkJob 3 0 7])
               (mkPool 1 0 (mkQueue [] 0) false)))
     = [mkJob 3 0 7; mkJob 2 0 7; mkJob 1 0 7].
Proof.
  assert (H1 : ThreadPool_create 1 = Some (mkPool 1 0 (mkQueue [] 0) false))
    by reflexivity.
  assert (H2 : Forall (λ j, job_size j = 7) [mkJob 1 0 7; mkJob 2 0 7; mkJob 3 0 7])
    by (repeat constructor).
  split; [exact H1|]. split; [exact H2|].
  exact (X10_equal_sizes_lifo 1 (mkPool 1 0 (mkQueue [] 0) false) 7
           [mkJob 1 0 7; mkJob 2 0 7; mkJob 3 0 7] H1 H2).
Defined.

(** A pool of one worker that is running the one job submitted. *)
Lemma reachable_job_taken :
  reachable 1
    (mkSystem (mkPool 1 1 (mkQueue [] 0) false) [InJob (mkJob 1 2 3)] [mkJob 1 2 3] []).
Proof.
  pose (job := mkJob 1 2 3).
  pose (s0 := System_create (mkPool 1 0 (mkQueue [] 0) false)).
  pose (s1 := mkSystem (mkPool 1 0 (mkQueue [job] 1) false) [AtLoopTop] [job] []).
  assert (R0 : reachable 1 s0) by (apply reachable_create; reflexivity).
  assert (R1 : reachable 1 s1).
  { apply (reachable_step 1 s0 s1 R0).
    exact (step_add_job s0 1 2 3 true _ eq_refl). }
  apply (reachable_step 1 s1 _ R1).
  exact (step_acquire s1 0 (Run job) _ eq_refl eq_refl).
Defined.

(** A pool of one worker that has run a job and was then shut down: the
    job is accepted and taken, its function returns, the worker gives it
    back, [ThreadPool_destroy] sets the stop flag and the worker leaves
    its loop. *)
Lemma reachable_job_done_shut_down :
  reachable 1
    (mkSystem (mkPool 1 0 (mkQueue [] 0) true) [Terminated] [mkJob 1 2 3]
       [mkJob 1 2 3]).
Proof.
  pose (job := mkJob 1 2 3).
  pose (s2 := mkSystem (mkPool 1 1 (mkQueue [] 0) false) [InJob job] [job] []).
  pose (s3 := mkSystem (mkPool 1 1 (mkQueue [] 0) false) [AfterJob job] [job] [job]).
  pose (s4 := mkSystem (mkPool 1 0 (mkQueue [] 0) false) [AtLoopTop] [job] [job]).
  pose (s5 := mkSystem (mkPool 1 0 (mkQueue [] 0) true) [AtLoopTop] [job] [job]).
  assert (R2 : reachable 1 s2) by exact reachable_job_taken.
  assert (R3 : reachable 1 s3).
  { apply (reachable_step 1 s2 s3 R2). exact (step_func_returns s2 0 job eq_refl). }
  assert (R4 : reachable 1 s4).
  { apply (reachable_step 1 s3 s4 R3). exact (step_release s3 0 job eq_refl). }
  assert (R5 : reachable 1 s5).
  { apply (reachable_step 1 s4 s5 R4). exact (step_destroy s4). }
  apply (reachable_step 1 s5 _ R5).
  exact (step_acquire s5 0 Exit _ eq_refl eq_refl).
Defined.

(** The worker finds the queue empty and blocks; a job is accepted and
    the signal wakes the worker. *)
Lemma reachable_signalled_pool : blocking_reachable 1 signalled_pool.
Proof.
  pose (job := mkJob 1 2 3).
  pose (b0 := Blocking_create (mkPool 1 0 (mkQueue [] 0) false)).
  pose (b1 := mkBlocking (mkPool 1 0 (mkQueue [] 0) false) [Blocked] [] []).
  assert (R0 : blocking_reachable 1 b0) by (apply blocking_create; reflexivity).
  assert (R1 : blocking_reachable 1 b1).
  { apply (blocking_reachable_step 1 b0 b1 R0). apply bstep_worker.
    exact (wstep_acquire b0 0 Wait _ eq_refl eq_refl). }
  apply (blocking_reachable_step 1 b1 _ R1).
  exact (bstep_add_job b1 1 2 3 _ _ eq_refl (signal_wake [Blocked] 0 eq_refl)).
Defined.

Lemma X11_size_counts_queue_witness :
  reachable 1
    (mkSystem (mkPool 1 1 (mkQueue [] 0) false) [InJob (mkJob 1 2 3)] [mkJob 1 2 3] [])
  /\ size (mkQueue [] 0) = Z.of_nat (length (head (mkQueue [] 0)))
  /\ fst (Thread_run_acquire (mkPool 1 1 (mkQueue [] 0) false)) ≠ Retry.
Proof.
  split; [exact reachable_job_taken|].
  exact (X11_size_counts_queue 1 _ reachable_job_taken).
Defined.

Lemma X12_active_workers_bounded_witness :
  1 <= 1
  /\ reachable 1
       (mkSystem (mkPool 1 1 (mkQueue [] 0) false) [InJob (mkJob 1 2 3)] [mkJob 1 2 3] [])
  /\ 0 <= 1 <= 1
  /\ 1 = 1
  /\ 1 = Z.of_nat (length (flat_map busy [InJob (mkJob 1 2 3)])).
Proof.
  assert (H1 : 1 <= 1) by lia.
  split; [exact H1|]. split; [exact reachable_job_taken|].
  exact (X12_active_workers_bounded 1 _ H1 reachable_job_taken).
Defined.

(** A submission after the stop flag is set. *)
Lemma X13_no_job_accepted_after_stop_witness :
  stop (pool (mkSystem (mkPool 1 0 (mkQueue [] 0) true) [AtLoopTop] [] [])) = true
  /\ rtc sys_step
       (mkSystem (mkPool 1 0 (mkQueue [] 0) true) [AtLoopTop] [] [])
       (mkSystem (mkPool 1 0 (mkQueue [] 0) true) [AtLoopTop] [] [])
  /\ rtc sys_step
       (mkSystem (mkPool 1 0 (mkQueue [] 0) true) [AtLoopTop] [] [])
       (mkSystem (mkPool 1 0 (mkQueue [] 0) true) [Terminated] [] [])
  /\ stop (pool (mkSystem (mkPool 1 0 (mkQueue [] 0) true) [Terminated] [] [])) = true
  /\ accepted (mkSystem (mkPool 1 0 (mkQueue [] 0) true) [Terminated] [] []) = [].
Proof.
  pose (s1 := mkSystem (mkPool 1 0 (mkQueue [] 0) true) [AtLoopTop] [] []).
  assert (H1 : stop (pool s1) = true) by reflexivity.
  assert (H2 : rtc sys_step s1 s1).
  { apply rtc_once. exact (step_add_job s1 1 2 3 false _ eq_refl). }
  assert (H3 : rtc sys_step s1
                 (mkSystem (mkPool 1 0 (mkQueue [] 0) true) [Terminated] [] [])).
  { eapply rtc_r; [exact H2|].
    exact (step_acquire s1 0 Exit _ eq_refl eq_refl). }
  split; [exact H1|]. split; [exact H2|]. split; [exact H3|].
  exact (X13_no_job_accepted_after_stop s1 _ H1 H3).
Defined.

Lemma X14_no_job_lost_at_shutdown_witness :
  1 <= 1
  /\ reachable 1
       (mkSystem (mkPool 1 0 (mkQueue [] 0) true) [Terminated] [mkJob 1 2 3]
          [mkJob 1 2 3])
  /\ Forall (λ w, w = Terminated) [Terminated]
  /\ stop (mkPool 1 0 (mkQueue [] 0) true) = true
  /\ head (mkQueue [] 0) = []
  /\ [mkJob 1 2 3] ≡ₚ [mkJob 1 2 3].
Proof.
  assert (H1 : 1 <= 1) by lia.
  assert (H3 : Forall (λ w, w = Terminated) [Terminated]) by (repeat constructor).
  split; [exact H1|]. split; [exact reachable_job_done_shut_down|].
  split; [exact H3|].
  exact (X14_no_job_lost_at_shutdown 1 _ H1 reachable_job_done_shut_down H3).
Defined.

Lemma X17_jobs_run_at_most_once_witness :
  reachable 1
    (mkSystem (mkPool 1 1 (mkQueue [] 0) false) [InJob (mkJob 1 2 3)] [mkJob 1 2 3] [])
  /\ flat_map running [InJob (mkJob 1 2 3)] ++ [] ⊆+ [mkJob 1 2 3].
Proof.
  split; [exact reachable_job_taken|].
  exact (X17_jobs_run_at_most_once 1 _ reachable_job_taken).
Defined.

Lemma X15_barrier_reachable_witness :
  1 <= 1
  /\ blocking_reachable 1 signalled_pool
  /\ (ThreadPool_check_waits (bpool signalled_pool) = true →
      ∃ b', worker_step signalled_pool b')
  /\ (∀ b', worker_step signalled_pool b' →
        (work_left b' < work_left signalled_pool)%nat
        ∧ baccepted b' = baccepted signalled_pool
        ∧ blocking_reachable 1 b'
        ∧ (ThreadPool_check_waits (bpool signalled_pool) = true →
           ThreadPool_check_waits (bpool b') = false →
           Thread_run_release (bpool signalled_pool) = (true, bpool b')))
  /\ ∃ b',
       rtc worker_step signalled_pool b'
       ∧ ThreadPool_check_waits (bpool b') = false
       ∧ baccepted b' = baccepted signalled_pool.
Proof.
  assert (H1 : 1 <= 1) by lia.
  split; [exact H1|]. split; [exact reachable_signalled_pool|].
  exact (X15_barrier_reachable 1 signalled_pool H1 reachable_signalled_pool).
Defined.

End ThreadPoolProps.
